(** * Simple_RayTracingDemo: the sphere intersection test and the recursive tracer

    A shallow embedding of [Sphere::intersect] and [trace] of [ray.cpp].

    Numbers.  The program computes in C++ [float].  The embedding reads every
    [float] as a real number of [R]: rounding, overflow and NaN are outside the
    model.  Two places of the program leave the reals and are modelled
    explicitly:
    - [INFINITY], the initial value of [tnear], [t0] and [t1] in [trace]
      (the Linux/Apple branch of the preprocessor test, where [INFINITY] is
      the infinity of <cmath>), is the constructor [INFINITY] of [efloat];
    - [sqrt(k)] on line 123 has no guard on the sign of [k]; a square root of
      a negative number is no real number (the program gets NaN), so the
      tracer's result type has an outcome [SqrtOfNegative k] for it.

    Recursion.  [trace] calls itself; the embedding [trace_fuel] bounds the
    nesting of invocations by a natural number and answers [OutOfFuel] when
    the bound is hit, so that termination is a theorem and not an assumption. *)

From Stdlib Require Import Reals Lra Lia ZArith List Bool Permutation.
Import ListNotations.

Open Scope R_scope.

(** ** Comparisons of reals as booleans *)

Definition Rltb (a b : R) : bool := if Rlt_dec a b then true else false.
Definition Rgtb (a b : R) : bool := Rltb b a.
(** C++ converts a [float] to [bool] as "different from zero". *)
Definition Rtruthy (a : R) : bool := if Req_dec_T a 0 then false else true.

Infix "<?" := Rltb (at level 70, no associativity) : R_scope.
Infix ">?" := Rgtb (at level 70, no associativity) : R_scope.

(** ** Vec3<float> *)

Module Vec3.

(** Modelled from the spec: [vec3.h] is not among the sources.  The spec's
    data model describes [Vec3] as "a 3-component real-valued tuple (x, y, z)
    used interchangeably as point, direction, and RGB color", which "supports
    addition, subtraction, scalar/component-wise multiplication, dot product,
    magnitude, and a normalize operation (mutates to unit length)". *)
Record t : Type := mk { x : R; y : R; z : R }.

(** Modelled from the spec: the one-argument constructor [Vec3f(v)], which the
    source uses as [Vec3f(2)], [Vec3f(5)] and through [Vec3f c = 0], sets the
    three components to [v] ("a color whose components equal 2"). *)
Definition splat (v : R) : t := mk v v v.

(** Modelled from the spec: component-wise addition. *)
Definition add (a b : t) : t := mk (x a + x b) (y a + y b) (z a + z b).
(** Modelled from the spec: component-wise subtraction. *)
Definition sub (a b : t) : t := mk (x a - x b) (y a - y b) (z a - z b).
(** Modelled from the spec: unary minus ("negate the normal"). *)
Definition neg (a : t) : t := mk (- x a) (- y a) (- z a).
(** Modelled from the spec: multiplication by a scalar. *)
Definition scale (a : t) (f : R) : t := mk (x a * f) (y a * f) (z a * f).
(** Modelled from the spec: component-wise multiplication. *)
Definition mul (a b : t) : t := mk (x a * x b) (y a * y b) (z a * z b).
(** Modelled from the spec: dot product. *)
Definition dot (a b : t) : R := x a * x b + y a * y b + z a * z b.
(** Modelled from the spec: squared magnitude and magnitude. *)
Definition length2 (a : t) : R := dot a a.
Definition length (a : t) : R := sqrt (length2 a).
(** Modelled from the spec: [normalize] rescales to unit length.  The source
    calls it as a mutating method ([nhit.normalize();]); the embedding returns
    the new value.  On the zero vector the result is the zero vector. *)
Definition normalize (a : t) : t := scale a (1 / length a).

End Vec3.

Abbreviation Vec3f := Vec3.t.

Declare Scope vec_scope.
Delimit Scope vec_scope with vec.
Bind Scope vec_scope with Vec3.t.
Infix "+" := Vec3.add : vec_scope.
Infix "-" := Vec3.sub : vec_scope.
Notation "- a" := (Vec3.neg a) : vec_scope.
Infix "*s" := Vec3.scale (at level 40, left associativity) : vec_scope.
Infix "*" := Vec3.mul : vec_scope.

(** ** Distances that may be [INFINITY] *)

Inductive efloat : Type :=
| Fin (v : R)
| INFINITY.

(** [a < b] on [efloat]. *)
Definition elt (a b : efloat) : bool :=
  match a, b with
  | Fin u, Fin v => u <? v
  | Fin _, INFINITY => true
  | INFINITY, _ => false
  end.

(** The real number held by a finite [efloat].  [trace] multiplies by [tnear]
    only after a sphere was selected, when [tnear] is finite
    ([find_nearest_finite] below). *)
Definition fin (a : efloat) : R :=
  match a with
  | Fin v => v
  | INFINITY => 0
  end.

(** ** class Sphere *)

Module Sphere.

Record t : Type := mk {
  center : Vec3f;
  radius : R;
  radius2 : R;
  surfaceColor : Vec3f;
  emissionColor : Vec3f;
  transparency : R;
  reflection : R
}.

(** The constructor, lines 27-36 (the defaults [refl = 0], [transp = 0] and
    [ec = 0] are written out by the caller here). *)
Definition new (c : Vec3f) (r : R) (sc : Vec3f) (refl transp : R)
    (ec : Vec3f) : t :=
  mk c r (r * r) sc ec transp refl.

(** [Sphere::intersect], lines 41-53.  The out-parameters [t0] and [t1] are
    passed in and returned together with the boolean. *)
Definition intersect (s : t) (rayorig raydir : Vec3f) (t0 t1 : efloat)
    : bool * efloat * efloat :=
  let l := (center s - rayorig)%vec in
  let tca := Vec3.dot l raydir in
  if tca <? 0 then (false, t0, t1) else
  let d2 := Vec3.dot l l - tca * tca in
  if d2 >? radius2 s then (false, t0, t1) else
  let thc := sqrt (radius2 s - d2) in
  let t0 := Fin (tca - thc) in
  let t1 := Fin (tca + thc) in
  (true, t0, t1).

End Sphere.

(** ** The tracer *)

(** What an invocation of [trace] produces in the model. *)
Inductive result (A : Type) : Type :=
| Value (a : A)
| SqrtOfNegative (k : R)
| OutOfFuel.

Arguments Value {A} a.
Arguments SqrtOfNegative {A} k.
Arguments OutOfFuel {A}.

Definition bind {A B : Type} (r : result A) (f : A -> result B) : result B :=
  match r with
  | Value a => f a
  | SqrtOfNegative k => SqrtOfNegative k
  | OutOfFuel => OutOfFuel
  end.

Notation "x <- c1 ;; c2" := (bind c1 (fun x => c2))
  (at level 61, c1 at next level, right associativity).

(** [sqrt] with its precondition. *)
Definition checked_sqrt (k : R) : result R :=
  if k <? 0 then SqrtOfNegative k else Value (sqrt k).

(** Line 59. *)
Definition MAX_RAY_DEPTH : Z := 5.

(** Lines 61-63. *)
Definition mix (a b mix : R) : R := b * mix + a * (1 - mix).

(** Lines 80-89: the loop over [spheres], from index [i] on, with the loop
    state [(tnear, sphere)].  The pointer [&spheres[i]] is the index together
    with the element. *)
Fixpoint find_nearest (rayorig raydir : Vec3f) (spheres : list Sphere.t)
    (i : nat) (st : efloat * option (nat * Sphere.t))
    : efloat * option (nat * Sphere.t) :=
  match spheres with
  | [] => st
  | s :: rest =>
      let '(tnear, sphere) := st in
      let '(hit, t0, t1) :=
        Sphere.intersect s rayorig raydir INFINITY INFINITY in
      let st :=
        if hit then
          let t0 := if elt t0 (Fin 0) then t1 else t0 in
          if elt t0 tnear then (t0, Some (i, s)) else (tnear, sphere)
        else (tnear, sphere) in
      find_nearest rayorig raydir rest (S i) st
  end.

(** Line 142 declares [float t0, t1;] without a value; only the boolean of the
    call on line 143 is used, and it does not depend on them
    ([intersect_hit_indep] below). *)
Definition uninitialized : efloat := INFINITY.

(** Lines 140-149: the shadow loop over [spheres], from index [j] on, for the
    light of index [i]; [break] ends the loop. *)
Fixpoint shadow_loop (orig lightDirection : Vec3f) (i : nat)
    (spheres : list Sphere.t) (j : nat) (transmission : Vec3f) : Vec3f :=
  match spheres with
  | [] => transmission
  | sj :: rest =>
      if negb (i =? j)%nat then
        let '(hit, _, _) :=
          Sphere.intersect sj orig lightDirection uninitialized
            uninitialized in
        if hit then Vec3.splat 0
        else shadow_loop orig lightDirection i rest (S j) transmission
      else shadow_loop orig lightDirection i rest (S j) transmission
  end.

(** Lines 134-154: the loop over the lights, from index [i] on; [all] is the
    whole vector [spheres], [sphere] the sphere that was hit. *)
Fixpoint light_loop (all : list Sphere.t) (sphere : Sphere.t)
    (phit nhit : Vec3f) (bias : R) (spheres : list Sphere.t) (i : nat)
    (surfaceColor : Vec3f) : Vec3f :=
  match spheres with
  | [] => surfaceColor
  | si :: rest =>
      let surfaceColor :=
        if Vec3.x (Sphere.emissionColor si) >? 0 then
          let transmission := Vec3.splat 1 in
          let lightDirection := (Sphere.center si - phit)%vec in
          let lightDirection := Vec3.normalize lightDirection in
          let transmission :=
            shadow_loop (phit + nhit *s bias) lightDirection i all 0
              transmission in
          (surfaceColor
           + Sphere.surfaceColor sphere * transmission
             *s Rmax 0 (Vec3.dot nhit lightDirection)
             * Sphere.emissionColor si)%vec
        else surfaceColor in
      light_loop all sphere phit nhit bias rest (S i) surfaceColor
  end.

(** Lines 74-158, the body of [trace]; its recursive calls go to the argument
    [trace]. *)
Definition trace_body
    (trace : Vec3f -> Vec3f -> list Sphere.t -> Z -> result Vec3f)
    (rayorig raydir : Vec3f) (spheres : list Sphere.t) (depth : Z)
    : result Vec3f :=
  let tnear := INFINITY in
  let sphere := None in
  let '(tnear, sphere) :=
    find_nearest rayorig raydir spheres 0 (tnear, sphere) in
  match sphere with
  | None => Value (Vec3.splat 2)
  | Some (_, sphere) =>
      let surfaceColor := Vec3.splat 0 in
      let phit := (rayorig + raydir *s fin tnear)%vec in
      let nhit := (phit - Sphere.center sphere)%vec in
      let nhit := Vec3.normalize nhit in
      let bias := 1e-4 in
      let inside := false in
      let '(nhit, inside) :=
        if Vec3.dot raydir nhit >? 0 then ((- nhit)%vec, true)
        else (nhit, inside) in
      surfaceColor <-
        (if ((Sphere.transparency sphere >? 0)
             || (Sphere.reflection sphere >? 0))
            && (depth <? MAX_RAY_DEPTH)%Z
         then
           let facingratio := - Vec3.dot raydir nhit in
           let fresneleffect := mix ((1 - facingratio) ^ 3) 1 0.1 in
           let refldir :=
             (raydir - nhit *s 2 *s Vec3.dot raydir nhit)%vec in
           let refldir := Vec3.normalize refldir in
           reflection <-
             trace (phit + nhit *s bias)%vec refldir spheres (depth + 1)%Z ;;
           refraction <-
             (if Rtruthy (Sphere.transparency sphere) then
                let ior := 1.1 in
                let eta := if inside : bool then ior else 1 / ior in
                let cosi := - Vec3.dot nhit raydir in
                let k := 1 - eta * eta * (1 - cosi * cosi) in
                sqrt_k <- checked_sqrt k ;;
                let refrdir :=
                  (raydir *s eta + nhit *s (eta * cosi - sqrt_k))%vec in
                let refrdir := Vec3.normalize refrdir in
                trace (phit - nhit *s bias)%vec refrdir spheres (depth + 1)%Z
              else Value (Vec3.splat 0)) ;;
           Value ((reflection *s fresneleffect
                   + refraction *s (1 - fresneleffect)
                     *s Sphere.transparency sphere)
                  * Sphere.surfaceColor sphere)%vec
         else
           Value (light_loop spheres sphere phit nhit bias spheres 0
                    surfaceColor)) ;;
      Value (surfaceColor + Sphere.emissionColor sphere)%vec
  end.

(** [trace] with at most [fuel] nested invocations: the invocation itself
    takes one unit, its recursive calls get the rest. *)
Fixpoint trace_fuel (fuel : nat) (rayorig raydir : Vec3f)
    (spheres : list Sphere.t) (depth : Z) : result Vec3f :=
  match fuel with
  | O => OutOfFuel
  | S fuel' => trace_body (trace_fuel fuel') rayorig raydir spheres depth
  end.

(** [trace]: the nesting the depth test of line 106 allows from [depth] on. *)
Definition trace (rayorig raydir : Vec3f) (spheres : list Sphere.t)
    (depth : Z) : result Vec3f :=
  trace_fuel (S (Z.to_nat (MAX_RAY_DEPTH - depth))) rayorig raydir spheres
    depth.

(** ** The specification's vocabulary

    The definitions of this module follow the words of the specification
    (sections 4.1 and 4.2); the theorems below compare them with the
    embedding of the source above. *)

Module Spec.

Definition bias : R := 1e-4.
Definition ior : R := 1.1.
Definition background : Vec3f := Vec3.mk 2 2 2.

(** "mix(a,b,k) = b.k + a.(1-k)" *)
Definition mix (a b k : R) : R := b * k + a * (1 - k).

(** "l = sphere.center - rayOrigin, tca = l.rayDirection" *)
Definition tca (s : Sphere.t) (rayOrigin rayDirection : Vec3f) : R :=
  Vec3.dot (Sphere.center s - rayOrigin) rayDirection.

(** "d^2 = l.l - tca^2" *)
Definition d2 (s : Sphere.t) (rayOrigin rayDirection : Vec3f) : R :=
  Vec3.dot (Sphere.center s - rayOrigin) (Sphere.center s - rayOrigin)
  - (tca s rayOrigin rayDirection) ^ 2.

(** "thc = sqrt(radius^2 - d^2)" *)
Definition thc (s : Sphere.t) (rayOrigin rayDirection : Vec3f) : R :=
  sqrt (Sphere.radius2 s - d2 s rayOrigin rayDirection).

(** The boolean of the Intersection Primitive. *)
Definition hits (s : Sphere.t) (rayOrigin rayDirection : Vec3f) : bool :=
  fst (fst (Sphere.intersect s rayOrigin rayDirection INFINITY INFINITY)).

(** The effective distance of a sphere: "t0, or t1 if t0 is negative"; no
    distance when the primitive reports no hit. *)
Definition effective_distance (s : Sphere.t) (rayOrigin rayDirection : Vec3f)
    : option R :=
  match Sphere.intersect s rayOrigin rayDirection INFINITY INFINITY with
  | (true, Fin t0, Fin t1) => Some (if t0 <? 0 then t1 else t0)
  | _ => None
  end.

(** "hitPoint = rayOrigin + rayDirection . tNearest" *)
Definition hitPoint (rayOrigin rayDirection : Vec3f) (tNearest : R) : Vec3f :=
  (rayOrigin + rayDirection *s tNearest)%vec.

(** "normalize(hitPoint - sphere.center)", the outward normal. *)
Definition outwardNormal (s : Sphere.t) (hitPoint : Vec3f) : Vec3f :=
  Vec3.normalize (hitPoint - Sphere.center s).

(** "If rayDirection . normal > 0 ... negate the normal and mark
    inside = true". *)
Definition inside (rayDirection outward : Vec3f) : bool :=
  Vec3.dot rayDirection outward >? 0.

Definition normal (rayDirection outward : Vec3f) : Vec3f :=
  if inside rayDirection outward then (- outward)%vec else outward.

(** "(sphere.reflection > 0 OR sphere.transparency > 0) AND
    depth < MAX_DEPTH" *)
Definition specular (s : Sphere.t) (depth : Z) : Prop :=
  (Sphere.reflection s > 0 \/ Sphere.transparency s > 0) /\ (depth < 5)%Z.

(** "facingRatio = -rayDirection.normal" *)
Definition facingRatio (rayDirection normal : Vec3f) : R :=
  - Vec3.dot rayDirection normal.

(** "fresnel = mix(pow(1 - facingRatio, 3), 1, 0.1)" *)
Definition fresnel (rayDirection normal : Vec3f) : R :=
  mix ((1 - facingRatio rayDirection normal) ^ 3) 1 0.1.

(** "reflDir = normalize(rayDirection - normal . 2.(rayDirection.normal))" *)
Definition reflDir (rayDirection normal : Vec3f) : Vec3f :=
  Vec3.normalize
    (rayDirection - normal *s (2 * Vec3.dot rayDirection normal)).

(** "eta = inside ? ior : 1/ior" *)
Definition eta (inside : bool) : R := if inside then ior else 1 / ior.

(** "cosi = -normal.rayDirection" *)
Definition cosi (rayDirection normal : Vec3f) : R :=
  - Vec3.dot normal rayDirection.

(** "k = 1 - eta^2.(1 - cosi^2)" *)
Definition k (eta cosi : R) : R := 1 - eta ^ 2 * (1 - cosi ^ 2).

(** "refrDir = normalize(rayDirection.eta + normal.(eta.cosi - sqrt(k)))" *)
Definition refrDir (rayDirection normal : Vec3f) (eta cosi : R) : Vec3f :=
  Vec3.normalize
    (rayDirection *s eta + normal *s (eta * cosi - sqrt (k eta cosi))).

(** The spheres of a scene with their indices. *)
Definition indexed_from (i : nat) (spheres : list Sphere.t)
    : list (nat * Sphere.t) :=
  combine (seq i (length spheres)) spheres.

Definition indexed (spheres : list Sphere.t) : list (nat * Sphere.t) :=
  indexed_from 0 spheres.

(** A light: "its emissionColor has a positive red channel". *)
Definition isLight (s : Sphere.t) : bool :=
  Vec3.x (Sphere.emissionColor s) >? 0.

(** "lightDir = normalize(lightSphere.center - hitPoint)" *)
Definition lightDir (light : Sphere.t) (hitPoint : Vec3f) : Vec3f :=
  Vec3.normalize (Sphere.center light - hitPoint).

(** The shadow test: some sphere of the scene "except the light itself"
    (the light has index [i]) intersects the shadow ray. *)
Definition occluded (spheres : list (nat * Sphere.t)) (i : nat)
    (shadowOrigin lightDir : Vec3f) : bool :=
  existsb (fun js => negb (fst js =? i)%nat
                     && hits (snd js) shadowOrigin lightDir) spheres.

(** "binary transmission: 0 or 1" *)
Definition transmission (spheres : list Sphere.t) (i : nat)
    (shadowOrigin lightDir : Vec3f) : R :=
  if occluded (indexed spheres) i shadowOrigin lightDir then 0 else 1.

(** "sphere.surfaceColor . transmission . max(0, normal.lightDir) .
    light.emissionColor" for the light of index [i]. *)
Definition contribution (spheres : list Sphere.t) (s : Sphere.t)
    (hitPoint normal : Vec3f) (il : nat * Sphere.t) : Vec3f :=
  let ld := lightDir (snd il) hitPoint in
  (Sphere.surfaceColor s
   *s transmission spheres (fst il) (hitPoint + normal *s bias) ld
   *s Rmax 0 (Vec3.dot normal ld)
   * Sphere.emissionColor (snd il))%vec.

(** The sum of a list of colors. *)
Definition vsum (l : list Vec3f) : Vec3f :=
  fold_right Vec3.add (Vec3.mk 0 0 0) l.

(** The diffuse sum over every light of the scene. *)
Definition diffuse (spheres : list Sphere.t) (s : Sphere.t)
    (hitPoint normal : Vec3f) : Vec3f :=
  vsum (map (contribution spheres s hitPoint normal)
          (filter (fun il => isLight (snd il)) (indexed spheres))).

(** The diffuse sum over "every other sphere in the scene whose emission is
    positive": the lights other than the sphere that was hit, of index
    [hit]. *)
Definition diffuse_others (spheres : list Sphere.t) (hit : nat)
    (s : Sphere.t) (hitPoint normal : Vec3f) : Vec3f :=
  vsum (map (contribution spheres s hitPoint normal)
          (filter (fun il => isLight (snd il) && negb (fst il =? hit)%nat)
             (indexed spheres))).

(** "Recurse: reflectionColor = trace(hitPoint + normal.bias, reflDir, scene,
    depth+1)" *)
Definition reflectionColor (spheres : list Sphere.t)
    (rayDirection hitPoint normal : Vec3f) (depth : Z) : result Vec3f :=
  trace (hitPoint + normal *s bias)%vec (reflDir rayDirection normal) spheres
    (depth + 1)%Z.

(** The refraction ray: the square root of [k] is taken, then the tracer
    recurses "with origin offset against the normal (hitPoint - normal.bias)"
    toward [refrDir]. *)
Definition refraction (spheres : list Sphere.t)
    (rayDirection hitPoint normal : Vec3f) (inside : bool) (depth : Z)
    : result Vec3f :=
  let eta := eta inside in
  let cosi := cosi rayDirection normal in
  _ <- checked_sqrt (k eta cosi) ;;
  trace (hitPoint - normal *s bias)%vec
    (refrDir rayDirection normal eta cosi) spheres (depth + 1)%Z.

(** "Refraction contributes nothing (zero vector) if the sphere is opaque." *)
Definition refractionColor (spheres : list Sphere.t) (s : Sphere.t)
    (rayDirection hitPoint normal : Vec3f) (inside : bool) (depth : Z)
    : result Vec3f :=
  if Req_dec_T (Sphere.transparency s) 0 then Value (Vec3.mk 0 0 0)
  else refraction spheres rayDirection hitPoint normal inside depth.

(** "(reflectionColor.fresnel + refractionColor.(1-fresnel).
    sphere.transparency) . sphere.surfaceColor" *)
Definition specularColor (s : Sphere.t) (rayDirection normal : Vec3f)
    (reflectionColor refractionColor : Vec3f) : Vec3f :=
  ((reflectionColor *s fresnel rayDirection normal
    + refractionColor *s (1 - fresnel rayDirection normal)
      *s Sphere.transparency s)
   * Sphere.surfaceColor s)%vec.

(** What the nearest-hit search promises about its state [(tnear, sphere)]
    after the spheres [seen]: either no sphere of [seen] has an effective
    distance, or the selected sphere has the least one, and every sphere
    before it has a strictly larger one (the first sphere wins a tie). *)
Definition nearest (rayOrigin rayDirection : Vec3f) (seen : list Sphere.t)
    (st : efloat * option (nat * Sphere.t)) : Prop :=
  match snd st with
  | None =>
      fst st = INFINITY
      /\ forall j s', nth_error seen j = Some s' ->
           effective_distance s' rayOrigin rayDirection = None
  | Some (i, s) =>
      nth_error seen i = Some s
      /\ exists t, fst st = Fin t
         /\ effective_distance s rayOrigin rayDirection = Some t
         /\ forall j s' t', nth_error seen j = Some s' ->
              effective_distance s' rayOrigin rayDirection = Some t' ->
              t <= t' /\ ((j < i)%nat -> t < t')
  end.

(** A distance that is not negative, or is still the [INFINITY] it started
    as. *)
Definition nonnegative (t : efloat) : Prop :=
  match t with
  | Fin v => 0 <= v
  | INFINITY => True
  end.

End Spec.

(** ** The inputs of the worked examples *)

(** The axis ray of the spec's intersection test: from [(0,0,5)] toward
    [(0,0,-1)]. *)
Definition axis_origin : Vec3f := Vec3.mk 0 0 5.
Definition axis_direction : Vec3f := Vec3.mk 0 0 (-1).

(** A camera ray from the origin down the negative z axis. *)
Definition camera_origin : Vec3f := Vec3.mk 0 0 0.
Definition camera_direction : Vec3f := Vec3.mk 0 0 (-1).

(** A white, opaque lamp of radius 2 around [(0,0,-1)]: the camera is inside
    it. *)
Definition lamp : Sphere.t :=
  Sphere.new (Vec3.mk 0 0 (-1)) 2 (Vec3.splat 1) 0 0 (Vec3.splat 5).

(** A half-transparent ball of radius 13 around [(1,12,0)], and a ray from
    the origin along the x axis: the ray starts inside the ball and leaves it
    at [(6,0,0)] under an angle whose cosine is 5/13. *)
Definition glass : Sphere.t :=
  Sphere.new (Vec3.mk 1 12 0) 13 (Vec3.splat 1) 0 (1 / 2) (Vec3.splat 0).
Definition grazing_origin : Vec3f := Vec3.mk 0 0 0.
Definition grazing_direction : Vec3f := Vec3.mk 1 0 0.

(** A pure light of radius 1 around [(0,0,-5)]: emission [(5,5,5)], every
    other material weight zero (the light of [main] has the same material). *)
Definition bulb : Sphere.t :=
  Sphere.new (Vec3.mk 0 0 (-5)) 1 (Vec3.splat 0) 0 0 (Vec3.splat 5).

(** An opaque mirror of radius 1 around [(0,0,-5)]. *)
Definition mirror : Sphere.t :=
  Sphere.new (Vec3.mk 0 0 (-5)) 1 (Vec3.splat 1) 1 0 (Vec3.splat 0).

(** A half-transparent ball of radius 1 around [(0,0,-5)], seen from
    outside by the camera ray. *)
Definition crystal : Sphere.t :=
  Sphere.new (Vec3.mk 0 0 (-5)) 1 (Vec3.splat 1) 0 (1 / 2) (Vec3.splat 0).

(** The center of [crystal], as the origin of a ray that starts inside. *)
Definition crystal_center : Vec3f := Vec3.mk 0 0 (-5).

(** A matte white ball of radius 1 around [(0,0,-5)]: opaque, no mirror, no
    light. *)
Definition wall : Sphere.t :=
  Sphere.new (Vec3.mk 0 0 (-5)) 1 (Vec3.splat 1) 0 0 (Vec3.splat 0).

(** A ray that looks away from the lamp. *)
Definition away_origin : Vec3f := Vec3.mk 0 0 5.
Definition away_direction : Vec3f := Vec3.mk 0 0 1.

(** ** render *)

(** Lines 175-178: the direction of the camera ray through pixel [(x, y)] of
    an image of [width] by [height] pixels.  The [unsigned] counters are
    natural numbers, [M_PI] is read as the number pi. *)
Definition camera_raydir (width height x y : nat) : Vec3f :=
  let invWidth := 1 / INR width in
  let invHeight := 1 / INR height in
  let fov := 50 in
  let aspectratio := INR width / INR height in
  let angle := tan (PI * 0.5 * fov / 180) in
  let xx := (2 * ((INR x + 0.5) * invWidth) - 1) * angle * aspectratio in
  let yy := (1 - 2 * ((INR y + 0.5) * invHeight)) * angle in
  let raydir := Vec3.mk xx yy (-1) in
  Vec3.normalize raydir.

(** Lines 173-181: the two loops fill [image] row by row, one call of
    [trace] from the origin at depth 0 per pixel. *)
Definition render_image (width height : nat) (spheres : list Sphere.t)
    : list (result Vec3f) :=
  flat_map
    (fun y =>
       map (fun x =>
              trace (Vec3.splat 0) (camera_raydir width height x y) spheres 0)
         (seq 0 width))
    (seq 0 height).

(** The conversion of a [float] to [unsigned char] drops the fraction; it is
    defined when what is left fits the type. *)
Definition truncate (f : R) : Z :=
  if f <? 0 then (- Int_part (- f))%Z else Int_part f.

Definition to_uchar (f : R) : option Z :=
  let t := truncate f in
  if ((0 <=? t) && (t <=? 255))%Z then Some t else None.

(** Lines 186-188: [(unsigned char)(std::min(float(1), c) * 255)], the byte
    written for one color component [c]. *)
Definition channel_byte (c : R) : option Z :=
  to_uchar (Rmin 1 c * 255).

(** A direction of length 1. *)
Definition unit_length (v : Vec3f) : Prop := Vec3.length2 v = 1.

(** ** Booleans and vectors *)

Lemma Rltb_true a b : (a <? b) = true <-> a < b.
Proof. unfold Rltb; destruct (Rlt_dec a b); split; intros; try easy. Qed.

Lemma Rltb_false a b : (a <? b) = false <-> b <= a.
Proof.
  unfold Rltb; destruct (Rlt_dec a b); split; intros; try easy; lra.
Qed.

Lemma Rgtb_true a b : (a >? b) = true <-> a > b.
Proof. unfold Rgtb; rewrite Rltb_true; lra. Qed.

Lemma Rgtb_false a b : (a >? b) = false <-> a <= b.
Proof. unfold Rgtb; rewrite Rltb_false; lra. Qed.

Lemma Vec3_eq (a b : Vec3f) :
  Vec3.x a = Vec3.x b -> Vec3.y a = Vec3.y b -> Vec3.z a = Vec3.z b -> a = b.
Proof. destruct a, b; simpl; intros; subst; reflexivity. Qed.


Lemma elt_Fin_0 t : elt (Fin t) (Fin 0) = (t <? 0).
Proof. reflexivity. Qed.

(** ** Sphere::intersect *)

Lemma intersect_miss s o d t0 t1 :
  Spec.tca s o d < 0 \/ Spec.d2 s o d > Sphere.radius2 s ->
  Sphere.intersect s o d t0 t1 = (false, t0, t1).
Proof.
  unfold Sphere.intersect, Spec.d2, Spec.tca. simpl pow. intros H.
  destruct (Rltb _ 0) eqn:E1; [reflexivity|].
  apply Rltb_false in E1.
  destruct (Rgtb _ _) eqn:E2; [reflexivity|].
  apply Rgtb_false in E2. exfalso. lra.
Qed.

Lemma intersect_hit s o d t0 t1 :
  0 <= Spec.tca s o d -> Spec.d2 s o d <= Sphere.radius2 s ->
  Sphere.intersect s o d t0 t1
  = (true, Fin (Spec.tca s o d - Spec.thc s o d),
           Fin (Spec.tca s o d + Spec.thc s o d)).
Proof.
  unfold Sphere.intersect, Spec.thc, Spec.d2, Spec.tca. simpl pow.
  intros H1 H2.
  destruct (Rltb _ 0) eqn:E1; [apply Rltb_true in E1; lra|].
  destruct (Rgtb _ _) eqn:E2; [apply Rgtb_true in E2; lra|].
  repeat f_equal; lra.
Qed.

(** The two cases are exhaustive. *)
Lemma intersect_cases s o d :
  (Spec.tca s o d < 0 \/ Spec.d2 s o d > Sphere.radius2 s)
  \/ (0 <= Spec.tca s o d /\ Spec.d2 s o d <= Sphere.radius2 s).
Proof. lra. Qed.

Lemma intersect_true_inv s o d t0 t1 a b :
  Sphere.intersect s o d t0 t1 = (true, a, b) ->
  0 <= Spec.tca s o d /\ Spec.d2 s o d <= Sphere.radius2 s
  /\ a = Fin (Spec.tca s o d - Spec.thc s o d)
  /\ b = Fin (Spec.tca s o d + Spec.thc s o d).
Proof.
  intros H. destruct (intersect_cases s o d) as [C|[C1 C2]].
  - rewrite (intersect_miss _ _ _ _ _ C) in H. discriminate.
  - rewrite (intersect_hit _ _ _ _ _ C1 C2) in H. inversion H. auto.
Qed.

Lemma intersect_false_inv s o d t0 t1 a b :
  Sphere.intersect s o d t0 t1 = (false, a, b) ->
  (Spec.tca s o d < 0 \/ Spec.d2 s o d > Sphere.radius2 s)
  /\ a = t0 /\ b = t1.
Proof.
  intros H. destruct (intersect_cases s o d) as [C|[C1 C2]].
  - rewrite (intersect_miss _ _ _ _ _ C) in H. inversion H. auto.
  - rewrite (intersect_hit _ _ _ _ _ C1 C2) in H. discriminate.
Qed.

(** The boolean does not depend on what [t0] and [t1] held before. *)
Lemma intersect_hit_indep s o d t0 t1 :
  fst (fst (Sphere.intersect s o d t0 t1)) = Spec.hits s o d.
Proof.
  unfold Spec.hits. destruct (intersect_cases s o d) as [C|[C1 C2]].
  - now rewrite !(intersect_miss _ _ _ _ _ C).
  - now rewrite !(intersect_hit _ _ _ _ _ C1 C2).
Qed.

Lemma thc_nonneg s o d : 0 <= Spec.thc s o d.
Proof. apply sqrt_pos. Qed.

(** C1: for every ray and sphere, [Sphere::intersect] reports no hit when
    [tca < 0] or [d2 > radius2]; otherwise it reports a hit with
    [t0 = tca - thc] and [t1 = tca + thc], and [t0 <= t1].  For a sphere of
    radius [r] around the origin and the ray from [(0,0,5)] toward
    [(0,0,-1)] the hit is at [t0 = 5 - r] and [t1 = 5 + r]. *)
Theorem intersect_correct (s : Sphere.t) (o d : Vec3f) (t0 t1 : efloat) :
  (Spec.tca s o d < 0 \/ Spec.d2 s o d > Sphere.radius2 s ->
   Sphere.intersect s o d t0 t1 = (false, t0, t1))
  /\ (~ (Spec.tca s o d < 0 \/ Spec.d2 s o d > Sphere.radius2 s) ->
      Sphere.intersect s o d t0 t1
      = (true, Fin (Spec.tca s o d - Spec.thc s o d),
               Fin (Spec.tca s o d + Spec.thc s o d))
      /\ Spec.tca s o d - Spec.thc s o d <= Spec.tca s o d + Spec.thc s o d)
  /\ (forall (r : R) (sc : Vec3f) (refl transp : R) (ec : Vec3f),
      0 <= r ->
      Sphere.intersect (Sphere.new (Vec3.mk 0 0 0) r sc refl transp ec)
        axis_origin axis_direction t0 t1
      = (true, Fin (5 - r), Fin (5 + r))).
Proof.
  split; [apply intersect_miss|]. split.
  - intros H. split.
    + apply intersect_hit; lra.
    + pose proof (thc_nonneg s o d). lra.
  - intros r sc refl transp ec Hr.
    set (b := Sphere.new _ r sc refl transp ec).
    assert (Ht : Spec.tca b axis_origin axis_direction = 5).
    { unfold Spec.tca, Vec3.dot; simpl. lra. }
    assert (Hd : Spec.d2 b axis_origin axis_direction = 0).
    { unfold Spec.d2. rewrite Ht. unfold Vec3.dot; simpl. lra. }
    assert (Hc : Spec.thc b axis_origin axis_direction = r).
    { unfold Spec.thc. rewrite Hd. simpl.
      rewrite Rminus_0_r. now apply sqrt_square. }
    rewrite intersect_hit.
    + now rewrite Ht, Hc.
    + lra.
    + rewrite Hd. simpl. nra.
Qed.

Lemma intersect_correct_witness :
  Sphere.intersect lamp away_origin away_direction INFINITY INFINITY
  = (false, INFINITY, INFINITY)
  /\ Sphere.intersect lamp axis_origin axis_direction INFINITY INFINITY
     = (true,
        Fin (Spec.tca lamp axis_origin axis_direction
             - Spec.thc lamp axis_origin axis_direction),
        Fin (Spec.tca lamp axis_origin axis_direction
             + Spec.thc lamp axis_origin axis_direction))
  /\ Sphere.intersect
       (Sphere.new (Vec3.mk 0 0 0) 2 (Vec3.splat 1) 0 0 (Vec3.splat 0))
       axis_origin axis_direction INFINITY INFINITY
     = (true, Fin (5 - 2), Fin (5 + 2)).
Proof.
  split; [|split].
  - apply (proj1 (intersect_correct lamp away_origin away_direction
                    INFINITY INFINITY)).
    left. unfold Spec.tca. cbv [Vec3.dot Vec3.sub Vec3.x Vec3.y Vec3.z
      Sphere.center Sphere.new lamp away_origin away_direction]. lra.
  - apply (proj1 (proj2 (intersect_correct lamp axis_origin axis_direction
                           INFINITY INFINITY))).
    unfold Spec.d2, Spec.tca. cbv [Vec3.dot Vec3.sub Vec3.x Vec3.y Vec3.z
      Sphere.center Sphere.radius2 Sphere.new lamp axis_origin
      axis_direction]. simpl pow. lra.
  - apply (proj2 (proj2 (intersect_correct lamp axis_origin axis_direction
                           INFINITY INFINITY))).
    lra.
Defined.

(** C10: when [Sphere::intersect] returns false, [t0] and [t1] hold what
    they held before the call; they are written only on a true return, and
    then with the two distances. *)
Theorem intersect_frame (s : Sphere.t) (o d : Vec3f) (t0 t1 a b : efloat) :
  (Sphere.intersect s o d t0 t1 = (false, a, b) -> a = t0 /\ b = t1)
  /\ (Sphere.intersect s o d t0 t1 = (true, a, b) ->
      a = Fin (Spec.tca s o d - Spec.thc s o d)
      /\ b = Fin (Spec.tca s o d + Spec.thc s o d)).
Proof.
  split; intros H.
  - now apply intersect_false_inv in H.
  - now apply intersect_true_inv in H.
Qed.

(** ** The nearest-hit search *)

Lemma effective_distance_hit s o d a b :
  Sphere.intersect s o d INFINITY INFINITY = (true, a, b) ->
  exists t0 t1, a = Fin t0 /\ b = Fin t1
    /\ Spec.effective_distance s o d = Some (if t0 <? 0 then t1 else t0)
    /\ 0 <= (if t0 <? 0 then t1 else t0).
Proof.
  intros H. unfold Spec.effective_distance. rewrite H.
  apply intersect_true_inv in H. destruct H as (Ht & _ & -> & ->).
  do 2 eexists. repeat split.
  pose proof (thc_nonneg s o d).
  destruct (Rltb _ 0) eqn:E; [lra|]. now apply Rltb_false in E.
Qed.

Lemma effective_distance_miss s o d a b :
  Sphere.intersect s o d INFINITY INFINITY = (false, a, b) ->
  Spec.effective_distance s o d = None.
Proof. intros H. unfold Spec.effective_distance. now rewrite H. Qed.

Lemma effective_distance_nonneg s o d t :
  Spec.effective_distance s o d = Some t -> 0 <= t.
Proof.
  destruct (Sphere.intersect s o d INFINITY INFINITY) as [[[] a] b] eqn:H.
  - destruct (effective_distance_hit _ _ _ _ _ H) as (t0 & t1 & _ & _ & E & N).
    rewrite E. now intros [= <-].
  - rewrite (effective_distance_miss _ _ _ _ _ H). discriminate.
Qed.

(** One turn of the loop of lines 80-89 keeps [Spec.nearest]. *)
Lemma find_nearest_step o d seen s rest st :
  Spec.nearest o d seen st ->
  exists st',
    find_nearest o d (s :: rest) (length seen) st
    = find_nearest o d rest (S (length seen)) st'
    /\ Spec.nearest o d (seen ++ [s]) st'.
Proof.
  destruct st as [tnear sphere]. intros Inv. simpl.
  destruct (Sphere.intersect s o d INFINITY INFINITY) as [[hit a] b] eqn:H.
  assert (Old : forall j s', (j < length seen)%nat ->
            nth_error (seen ++ [s]) j = Some s' -> nth_error seen j = Some s').
  { intros j s' Hj. now rewrite nth_error_app1. }
  assert (New : forall j s', nth_error (seen ++ [s]) j = Some s' ->
            (j < length seen)%nat \/ (j = length seen /\ s' = s)).
  { intros j s' Hj. destruct (Nat.lt_ge_cases j (length seen)); [now left|].
    right. rewrite nth_error_app2 in Hj by assumption.
    destruct (j - length seen)%nat as [|m] eqn:E.
    - simpl in Hj. split; [lia | congruence].
    - simpl in Hj. now destruct m. }
  destruct hit.
  - destruct (effective_distance_hit _ _ _ _ _ H) as (t0 & t1 & -> & -> & E & N).
    rewrite elt_Fin_0.
    set (t := if t0 <? 0 then t1 else t0) in *.
    replace (if t0 <? 0 then Fin t1 else Fin t0) with (Fin t)
      by (unfold t; now destruct (t0 <? 0)).
    destruct (elt (Fin t) tnear) eqn:L.
    + eexists; split; [reflexivity|]. unfold Spec.nearest; simpl. split.
      * rewrite nth_error_app2 by lia. now rewrite Nat.sub_diag.
      * exists t. repeat split; trivial.
        -- destruct (New _ _ H0) as [Hj|[-> ->]].
           ++ apply Old in H0; trivial.
              unfold Spec.nearest in Inv; simpl in Inv.
              destruct sphere as [[i0 s0]|].
              ** destruct Inv as (_ & u & -> & _ & Min).
                 apply Rltb_true in L.
                 destruct (Min _ _ _ H0 H1). lra.
              ** destruct Inv as (_ & No). rewrite (No _ _ H0) in H1.
                 discriminate.
           ++ rewrite E in H1. injection H1 as <-. lra.
        -- intros Hj. destruct (New _ _ H0) as [_|[-> ->]]; [|lia].
           apply Old in H0; trivial.
           unfold Spec.nearest in Inv; simpl in Inv.
           destruct sphere as [[i0 s0]|].
           ** destruct Inv as (_ & u & -> & _ & Min).
              apply Rltb_true in L.
              destruct (Min _ _ _ H0 H1). lra.
           ** destruct Inv as (_ & No). rewrite (No _ _ H0) in H1.
              discriminate.
    + eexists; split; [reflexivity|].
      unfold Spec.nearest in *; simpl in *.
      destruct sphere as [[i0 s0]|].
      * destruct Inv as (Hi & u & -> & Eu & Min).
        apply Rltb_false in L.
        assert (i0 < length seen)%nat
          by (apply nth_error_Some; congruence).
        split; [now rewrite nth_error_app1|].
        exists u. repeat split; trivial.
        -- destruct (New _ _ H1) as [Hj|[-> ->]].
           ++ apply Old in H1; trivial. now destruct (Min _ _ _ H1 H2).
           ++ rewrite E in H2. now injection H2 as <-.
        -- intros Hj. destruct (New _ _ H1) as [Hj'|[-> ->]]; [|lia].
           apply Old in H1; trivial. destruct (Min _ _ _ H1 H2); auto.
      * destruct Inv as (-> & _). discriminate.
  - eexists; split; [reflexivity|].
    pose proof (effective_distance_miss _ _ _ _ _ H) as E.
    unfold Spec.nearest in *; simpl in *.
    destruct sphere as [[i0 s0]|].
    + destruct Inv as (Hi & u & -> & Eu & Min).
      assert (i0 < length seen)%nat
        by (apply nth_error_Some; congruence).
      split; [now rewrite nth_error_app1|].
      exists u. repeat split; trivial.
      * destruct (New _ _ H1) as [Hj|[-> ->]].
        -- apply Old in H1; trivial. now destruct (Min _ _ _ H1 H2).
        -- congruence.
      * intros Hj. destruct (New _ _ H1) as [Hj'|[-> ->]]; [|lia].
        apply Old in H1; trivial. destruct (Min _ _ _ H1 H2); auto.
    + destruct Inv as (-> & No). split; trivial.
      intros j s' Hj. destruct (New _ _ Hj) as [Hj'|[-> ->]]; trivial.
      apply Old in Hj; eauto.
Qed.

Lemma find_nearest_inv o d rest : forall seen st,
  Spec.nearest o d seen st ->
  Spec.nearest o d (seen ++ rest) (find_nearest o d rest (length seen) st).
Proof.
  induction rest as [|s rest IH]; intros seen st Inv.
  - now rewrite app_nil_r.
  - destruct (find_nearest_step o d seen s rest st Inv) as (st' & -> & Inv').
    replace (seen ++ s :: rest) with ((seen ++ [s]) ++ rest)
      by now rewrite <- app_assoc.
    replace (S (length seen)) with (length (seen ++ [s]))
      by (rewrite length_app; simpl; lia).
    now apply IH.
Qed.

Lemma find_nearest_spec o d spheres :
  Spec.nearest o d spheres (find_nearest o d spheres 0 (INFINITY, None)).
Proof.
  apply (find_nearest_inv o d spheres [] (INFINITY, None)).
  split; trivial. intros [|j] s'; discriminate.
Qed.

(** When a sphere was selected, [tnear] is finite and not negative. *)
Lemma find_nearest_finite o d spheres tnear i s :
  find_nearest o d spheres 0 (INFINITY, None) = (tnear, Some (i, s)) ->
  exists t, tnear = Fin t /\ 0 <= t.
Proof.
  intros H. pose proof (find_nearest_spec o d spheres) as N.
  rewrite H in N. destruct N as (_ & t & Ht & E & _). simpl in Ht.
  exists t. split; trivial. eapply effective_distance_nonneg; eauto.
Qed.

Lemma find_nearest_app o d l1 : forall l2 i st,
  find_nearest o d (l1 ++ l2) i st
  = find_nearest o d l2 (i + length l1) (find_nearest o d l1 i st).
Proof.
  induction l1 as [|s l1 IH]; intros l2 i st.
  - simpl. now rewrite Nat.add_0_r.
  - cbn [app length]. rewrite <- Nat.add_succ_comm.
    cbn [find_nearest]. destruct st as [tnear sphere].
    destruct (Sphere.intersect s o d INFINITY INFINITY) as [[hit a] b].
    apply IH.
Qed.

(** ** The body of trace and its recursive calls *)

(** The body calls [trace] only under [depth < MAX_RAY_DEPTH], and only with
    the same [spheres] and [depth + 1]: two functions that agree there give
    the same result. *)
Lemma trace_body_ext rec1 rec2 o d spheres depth :
  ((depth < MAX_RAY_DEPTH)%Z -> forall o' d',
      rec1 o' d' spheres (depth + 1)%Z = rec2 o' d' spheres (depth + 1)%Z) ->
  trace_body rec1 o d spheres depth = trace_body rec2 o d spheres depth.
Proof.
  intros H. unfold trace_body.
  destruct (find_nearest _ _ _ _ _) as [tnear [[i s]|]]; trivial.
  destruct (if Vec3.dot d _ >? 0 then _ else _) as [nhit inside].
  destruct (depth <? MAX_RAY_DEPTH)%Z eqn:E.
  - apply Z.ltb_lt in E. specialize (H E).
    destruct (_ || _); trivial. cbn [andb]. rewrite H.
    match goal with |- context [rec2 ?a ?b spheres _] =>
      destruct (rec2 a b spheres (depth + 1)%Z) end; cbn [bind]; trivial.
    destruct (Rtruthy _); cbn [bind]; trivial.
    destruct (checked_sqrt _); cbn [bind]; trivial. now rewrite H.
  - now rewrite andb_false_r.
Qed.

Lemma trace_unfold o d spheres depth :
  trace o d spheres depth = trace_body trace o d spheres depth.
Proof.
  unfold trace at 1. cbn [trace_fuel]. apply trace_body_ext.
  intros E o' d'. unfold trace, MAX_RAY_DEPTH in *.
  replace (Z.to_nat (5 - depth)) with (S (Z.to_nat (5 - (depth + 1))))
    by lia.
  reflexivity.
Qed.

(** More fuel than the depth test allows nesting changes nothing. *)
Lemma trace_fuel_enough spheres : forall fuel o d depth,
  (Z.to_nat (MAX_RAY_DEPTH - depth) < fuel)%nat ->
  trace_fuel fuel o d spheres depth = trace o d spheres depth.
Proof.
  induction fuel as [|fuel IH]; intros o d depth Hf; [lia|].
  rewrite trace_unfold. cbn [trace_fuel]. apply trace_body_ext.
  intros E o' d'. apply IH. unfold MAX_RAY_DEPTH in *. lia.
Qed.

(** The body runs out of fuel only if a recursive call does. *)
Lemma trace_body_fuel rec o d spheres depth :
  ((depth < MAX_RAY_DEPTH)%Z -> forall o' d',
      rec o' d' spheres (depth + 1)%Z <> OutOfFuel) ->
  trace_body rec o d spheres depth <> OutOfFuel.
Proof.
  intros H. unfold trace_body.
  destruct (find_nearest _ _ _ _ _) as [tnear [[i s]|]]; [|discriminate].
  destruct (if Vec3.dot d _ >? 0 then _ else _) as [nhit inside].
  destruct (depth <? MAX_RAY_DEPTH)%Z eqn:E.
  - apply Z.ltb_lt in E. specialize (H E).
    destruct (_ || _); [|discriminate]. cbn [andb].
    match goal with |- context [rec ?a ?b spheres _] =>
      pose proof (H a b); destruct (rec a b spheres (depth + 1)%Z) end;
      cbn [bind]; try easy.
    destruct (Rtruthy _); cbn [bind]; [|discriminate].
    unfold checked_sqrt. destruct (_ <? 0); cbn [bind]; [discriminate|].
    match goal with |- context [rec ?a ?b spheres _] =>
      pose proof (H a b); destruct (rec a b spheres (depth + 1)%Z) end;
      cbn [bind]; easy.
  - rewrite andb_false_r. discriminate.
Qed.

Lemma trace_terminates spheres : forall n depth o d,
  (Z.to_nat (MAX_RAY_DEPTH - depth) <= n)%nat ->
  trace o d spheres depth <> OutOfFuel.
Proof.
  induction n as [|n IH]; intros depth o d Hn; rewrite trace_unfold;
    apply trace_body_fuel; intros E o' d'; unfold MAX_RAY_DEPTH in *.
  - lia.
  - apply IH. lia.
Qed.

(** A reported square root of a negative number is one. *)
Lemma trace_body_sqrt rec o d spheres depth k :
  (forall o' d' k', rec o' d' spheres (depth + 1)%Z = SqrtOfNegative k' ->
                    k' < 0) ->
  trace_body rec o d spheres depth = SqrtOfNegative k -> k < 0.
Proof.
  intros H. unfold trace_body.
  destruct (find_nearest _ _ _ _ _) as [tnear [[i s]|]]; [|discriminate].
  destruct (if Vec3.dot d _ >? 0 then _ else _) as [nhit inside].
  destruct (_ && _); cbn [bind]; [|discriminate].
  match goal with |- context [rec ?a ?b spheres _] =>
    pose proof (H a b) as Ha; destruct (rec a b spheres (depth + 1)%Z) end;
    cbn [bind]; try easy.
  2: { intros [= <-]. now apply Ha. }
  destruct (Rtruthy _); cbn [bind]; [|discriminate].
  unfold checked_sqrt. destruct (_ <? 0) eqn:L; cbn [bind].
  - apply Rltb_true in L. now intros [= <-].
  - match goal with |- context [rec ?a ?b spheres _] =>
      pose proof (H a b) as Hb; destruct (rec a b spheres (depth + 1)%Z) end;
      cbn [bind]; try easy.
    intros [= <-]. now apply Hb.
Qed.

Lemma trace_sqrt spheres : forall n depth o d k,
  (Z.to_nat (MAX_RAY_DEPTH - depth) <= n)%nat ->
  trace o d spheres depth = SqrtOfNegative k -> k < 0.
Proof.
  induction n as [|n IH]; intros depth o d k Hn; rewrite trace_unfold;
    apply trace_body_sqrt; intros o' d' k'.
  - rewrite trace_unfold. unfold trace_body.
    destruct (find_nearest _ _ _ _ _) as [tnear [[i s]|]]; [|discriminate].
    destruct (if Vec3.dot d' _ >? 0 then _ else _) as [nhit inside].
    replace (depth + 1 <? MAX_RAY_DEPTH)%Z with false
      by (symmetry; apply Z.ltb_ge; unfold MAX_RAY_DEPTH in *; lia).
    rewrite andb_false_r. discriminate.
  - apply IH. unfold MAX_RAY_DEPTH in *. lia.
Qed.

(** ** The two shading branches *)

Lemma scale_scale (v : Vec3f) (a b : R) :
  (v *s a *s b)%vec = (v *s (a * b))%vec.
Proof. apply Vec3_eq; simpl; ring. Qed.

Lemma k_eq (eta cosi : R) :
  1 - eta * eta * (1 - cosi * cosi) = Spec.k eta cosi.
Proof. unfold Spec.k. ring. Qed.

Lemma specular_test s depth :
  ((Sphere.transparency s >? 0) || (Sphere.reflection s >? 0))
  && (depth <? MAX_RAY_DEPTH)%Z = true
  <-> Spec.specular s depth.
Proof.
  unfold Spec.specular, MAX_RAY_DEPTH.
  rewrite andb_true_iff, orb_true_iff, !Rgtb_true, Z.ltb_lt. tauto.
Qed.

Lemma specular_test_false s depth :
  ((Sphere.transparency s >? 0) || (Sphere.reflection s >? 0))
  && (depth <? MAX_RAY_DEPTH)%Z = false
  <-> ~ Spec.specular s depth.
Proof. rewrite <- specular_test. now destruct (_ && _). Qed.

(** Lines 94-104 compute the spec's hit point, normal and inside flag. *)
Lemma hit_geometry o d s tnear :
  let phit := (o + d *s fin tnear)%vec in
  let nhit := Vec3.normalize (phit - Sphere.center s) in
  (if Vec3.dot d nhit >? 0 then ((- nhit)%vec, true) else (nhit, false))
  = (Spec.normal d (Spec.outwardNormal s (Spec.hitPoint o d (fin tnear))),
     Spec.inside d (Spec.outwardNormal s (Spec.hitPoint o d (fin tnear)))).
Proof.
  unfold Spec.normal, Spec.inside, Spec.outwardNormal, Spec.hitPoint.
  cbv zeta. now destruct (_ >? 0).
Qed.

Lemma trace_miss o d spheres depth tnear :
  find_nearest o d spheres 0 (INFINITY, None) = (tnear, None) ->
  trace o d spheres depth = Value Spec.background.
Proof. intros H. rewrite trace_unfold. unfold trace_body. now rewrite H. Qed.

Lemma trace_specular o d spheres depth tnear i s :
  find_nearest o d spheres 0 (INFINITY, None) = (tnear, Some (i, s)) ->
  Spec.specular s depth ->
  let p := Spec.hitPoint o d (fin tnear) in
  let out := Spec.outwardNormal s p in
  let n := Spec.normal d out in
  let eta := Spec.eta (Spec.inside d out) in
  let cosi := Spec.cosi d n in
  trace o d spheres depth =
    (reflection <-
       trace (p + n *s Spec.bias)%vec (Spec.reflDir d n) spheres
         (depth + 1)%Z ;;
     refraction <-
       (if Rtruthy (Sphere.transparency s) then
          sqrt_k <- checked_sqrt (Spec.k eta cosi) ;;
          trace (p - n *s Spec.bias)%vec
            (Vec3.normalize (d *s eta + n *s (eta * cosi - sqrt_k)))
            spheres (depth + 1)%Z
        else Value (Vec3.splat 0)) ;;
     Value ((reflection *s Spec.fresnel d n
             + refraction *s (1 - Spec.fresnel d n)
               *s Sphere.transparency s)
            * Sphere.surfaceColor s + Sphere.emissionColor s)%vec).
Proof.
  intros H Sp p out n eta cosi. rewrite trace_unfold. unfold trace_body.
  rewrite H. cbv zeta. rewrite hit_geometry.
  rewrite (proj2 (specular_test s depth) Sp).
  fold p out n. fold eta. rewrite scale_scale, k_eq.
  change (- Vec3.dot n d) with cosi.
  change (Vec3.normalize (d - n *s (2 * Vec3.dot d n)))
    with (Spec.reflDir d n).
  change (mix ((1 - - Vec3.dot d n) ^ 3) 1 0.1) with (Spec.fresnel d n).
  change 1e-4 with Spec.bias.
  change (if Spec.inside d out then 1.1 else 1 / 1.1) with eta.
  destruct (trace _ (Spec.reflDir d n) _ _); cbn [bind]; trivial.
  destruct (Rtruthy _); cbn [bind]; trivial.
  destruct (checked_sqrt _); cbn [bind]; trivial.
  destruct (trace _ _ _ _); cbn [bind]; trivial.
Qed.

Lemma trace_local o d spheres depth tnear i s :
  find_nearest o d spheres 0 (INFINITY, None) = (tnear, Some (i, s)) ->
  ~ Spec.specular s depth ->
  let p := Spec.hitPoint o d (fin tnear) in
  let n := Spec.normal d (Spec.outwardNormal s p) in
  trace o d spheres depth
  = Value (light_loop spheres s p n Spec.bias spheres 0 (Vec3.splat 0)
           + Sphere.emissionColor s)%vec.
Proof.
  intros H Sp p n. rewrite trace_unfold. unfold trace_body.
  rewrite H. cbv zeta. rewrite hit_geometry.
  rewrite (proj2 (specular_test_false s depth) Sp). reflexivity.
Qed.

(** ** The diffuse branch as a sum over the lights *)

Lemma add_assoc (a b c : Vec3f) : (a + (b + c))%vec = (a + b + c)%vec.
Proof. apply Vec3_eq; simpl; ring. Qed.

Lemma add_0_l (a : Vec3f) : (Vec3.splat 0 + a)%vec = a.
Proof. apply Vec3_eq; simpl; ring. Qed.

Lemma add_0_r (a : Vec3f) : (a + Vec3.mk 0 0 0)%vec = a.
Proof. apply Vec3_eq; simpl; ring. Qed.

Lemma mul_splat (a : Vec3f) (t : R) : (a * Vec3.splat t)%vec = (a *s t)%vec.
Proof. reflexivity. Qed.

Lemma fold_left_vsum (l : list Vec3f) : forall acc,
  fold_left Vec3.add l acc = (acc + Spec.vsum l)%vec.
Proof.
  induction l as [|v l IH]; intros acc; simpl.
  - now rewrite add_0_r.
  - now rewrite IH, add_assoc.
Qed.

Lemma indexed_from_cons i s l :
  Spec.indexed_from i (s :: l) = (i, s) :: Spec.indexed_from (S i) l.
Proof. reflexivity. Qed.

(** Lines 140-149 compute the binary transmission. *)
Lemma shadow_loop_spec p ld i : forall l j,
  shadow_loop p ld i l j (Vec3.splat 1)
  = Vec3.splat (if Spec.occluded (Spec.indexed_from j l) i p ld
                then 0 else 1).
Proof.
  induction l as [|s l IH]; intros j; trivial.
  rewrite indexed_from_cons. cbn [shadow_loop Spec.occluded existsb fst snd].
  rewrite (Nat.eqb_sym j i).
  destruct (i =? j)%nat; cbn [negb andb orb]; [apply IH|].
  pose proof (intersect_hit_indep s p ld uninitialized uninitialized) as E.
  destruct (Sphere.intersect s p ld _ _) as [[hit a] b]. simpl in E.
  rewrite <- E. destruct hit; cbn [orb]; [reflexivity | apply IH].
Qed.

(** Lines 134-154 add one contribution per light, in the order of the
    scene. *)
Lemma light_loop_spec all s p n : forall l i acc,
  light_loop all s p n Spec.bias l i acc
  = fold_left Vec3.add
      (map (Spec.contribution all s p n)
         (filter (fun il => Spec.isLight (snd il)) (Spec.indexed_from i l)))
      acc.
Proof.
  induction l as [|si l IH]; intros i acc; trivial.
  rewrite indexed_from_cons. cbn [light_loop filter snd].
  unfold Spec.isLight at 1.
  destruct (Vec3.x (Sphere.emissionColor si) >? 0); rewrite IH; trivial.
  cbn [map fold_left]. f_equal. f_equal.
  rewrite shadow_loop_spec, mul_splat. reflexivity.
Qed.

Lemma trace_diffuse o d spheres depth tnear i s :
  find_nearest o d spheres 0 (INFINITY, None) = (tnear, Some (i, s)) ->
  ~ Spec.specular s depth ->
  let p := Spec.hitPoint o d (fin tnear) in
  let n := Spec.normal d (Spec.outwardNormal s p) in
  trace o d spheres depth
  = Value (Spec.diffuse spheres s p n + Sphere.emissionColor s)%vec.
Proof.
  intros H Sp p n. rewrite (trace_local _ _ _ _ _ _ _ H Sp). fold p n.
  rewrite light_loop_spec, fold_left_vsum, add_0_l. reflexivity.
Qed.


(** The shadow test in words: the light of index [i] is occluded exactly when
    a sphere at another index of the scene intersects the shadow ray. *)
Lemma occluded_from_iff i p ld : forall l k,
  Spec.occluded (Spec.indexed_from k l) i p ld = true
  <-> exists j s', (k + j)%nat <> i /\ nth_error l j = Some s'
                   /\ Spec.hits s' p ld = true.
Proof.
  induction l as [|s l IH]; intros k.
  - split; [discriminate|]. now intros ([|j] & s' & _ & ? & _).
  - rewrite indexed_from_cons. cbn [Spec.occluded existsb fst snd].
    fold (Spec.occluded (Spec.indexed_from (S k) l) i p ld).
    rewrite orb_true_iff, IH, andb_true_iff, negb_true_iff, Nat.eqb_neq.
    split.
    + intros [[Hk Hs]|(j & s' & Hj & Hn & Hs)].
      * exists 0%nat, s. rewrite Nat.add_0_r. auto.
      * exists (S j), s'. rewrite <- Nat.add_succ_comm. auto.
    + intros ([|j] & s' & Hj & Hn & Hs).
      * left. rewrite Nat.add_0_r in Hj. simpl in Hn. injection Hn as ->.
        auto.
      * right. exists j, s'. rewrite <- Nat.add_succ_comm in Hj. auto.
Qed.

Lemma transmission_zero_iff spheres i p ld :
  Spec.transmission spheres i p ld = 0
  <-> exists j s', j <> i /\ nth_error spheres j = Some s'
                   /\ Spec.hits s' p ld = true.
Proof.
  rewrite <- (occluded_from_iff i p ld spheres 0).
  unfold Spec.transmission, Spec.indexed.
  destruct (Spec.occluded _ _ _ _); split; intros; trivial;
    [lra | discriminate].
Qed.

Lemma transmission_binary spheres i p ld :
  Spec.transmission spheres i p ld = 0 \/ Spec.transmission spheres i p ld = 1.
Proof. unfold Spec.transmission. destruct (Spec.occluded _ _ _ _); auto. Qed.

(** The spec's refraction is what lines 117-126 compute. *)
Lemma refractionColor_eq spheres s d p n inside depth :
  (if Rtruthy (Sphere.transparency s) then
     sqrt_k <- checked_sqrt (Spec.k (Spec.eta inside) (Spec.cosi d n)) ;;
     trace (p - n *s Spec.bias)%vec
       (Vec3.normalize
          (d *s Spec.eta inside
           + n *s (Spec.eta inside * Spec.cosi d n - sqrt_k)))
       spheres (depth + 1)%Z
   else Value (Vec3.splat 0))
  = Spec.refractionColor spheres s d p n inside depth.
Proof.
  unfold Spec.refractionColor, Rtruthy, Spec.refraction.
  destruct (Req_dec_T _ 0); trivial.
  unfold checked_sqrt. now destruct (_ <? 0).
Qed.

Lemma trace_specular_spec o d spheres depth tnear i s :
  find_nearest o d spheres 0 (INFINITY, None) = (tnear, Some (i, s)) ->
  Spec.specular s depth ->
  let p := Spec.hitPoint o d (fin tnear) in
  let out := Spec.outwardNormal s p in
  let n := Spec.normal d out in
  trace o d spheres depth =
    (reflectionColor <- Spec.reflectionColor spheres d p n depth ;;
     refractionColor <-
       Spec.refractionColor spheres s d p n (Spec.inside d out) depth ;;
     Value (Spec.specularColor s d n reflectionColor refractionColor
            + Sphere.emissionColor s)%vec).
Proof.
  intros H Sp p out n.
  rewrite (trace_specular _ _ _ _ _ _ _ H Sp). fold p out n.
  now rewrite refractionColor_eq.
Qed.

(** ** Evaluating the worked examples *)

Ltac vec_simpl :=
  cbv [Vec3.x Vec3.y Vec3.z Vec3.add Vec3.sub Vec3.neg Vec3.scale Vec3.mul
       Vec3.dot Vec3.splat Vec3.length2
       Sphere.center Sphere.radius Sphere.radius2 Sphere.surfaceColor
       Sphere.emissionColor Sphere.transparency Sphere.reflection Sphere.new
       Spec.hitPoint fin fst snd
       lamp glass camera_origin camera_direction grazing_origin
       grazing_direction axis_origin axis_direction bulb mirror crystal wall crystal_center away_origin
       away_direction].

Ltac vec_eq := apply Vec3_eq; vec_simpl; lra.

Lemma normalize_eval (v : Vec3f) (len : R) :
  0 < len -> len * len = Vec3.length2 v ->
  Vec3.normalize v = (v *s (1 / len))%vec.
Proof.
  intros Hp Hl. unfold Vec3.normalize, Vec3.length.
  rewrite (sqrt_lem_1 (Vec3.length2 v) len); trivial; nra.
Qed.

Lemma intersect_eval s o d t0 t1 (a h : R) :
  Spec.tca s o d = a -> 0 <= a -> 0 <= h ->
  h * h = Sphere.radius2 s
          - (Vec3.dot (Sphere.center s - o) (Sphere.center s - o) - a * a) ->
  Sphere.intersect s o d t0 t1 = (true, Fin (a - h), Fin (a + h)).
Proof.
  intros Ha Hpos Hh Hhh.
  assert (Hd : Spec.d2 s o d
               = Vec3.dot (Sphere.center s - o) (Sphere.center s - o) - a * a).
  { unfold Spec.d2. rewrite Ha. ring. }
  assert (Hc : Spec.thc s o d = h).
  { unfold Spec.thc. rewrite Hd. apply sqrt_lem_1; nra. }
  rewrite intersect_hit; rewrite ?Ha, ?Hc, ?Hd; trivial; nra.
Qed.

Lemma find_nearest_single o d s (t0 t1 : R) :
  Sphere.intersect s o d INFINITY INFINITY = (true, Fin t0, Fin t1) ->
  find_nearest o d [s] 0 (INFINITY, None)
  = (Fin (if t0 <? 0 then t1 else t0), Some (0%nat, s)).
Proof.
  intros H. cbn [find_nearest]. rewrite H, elt_Fin_0.
  now destruct (t0 <? 0).
Qed.

(** The camera ray leaves the lamp at distance 3. *)
Lemma lamp_nearest :
  find_nearest camera_origin camera_direction [lamp] 0 (INFINITY, None)
  = (Fin 3, Some (0%nat, lamp)).
Proof.
  rewrite (find_nearest_single _ _ _ (1 - 2) (1 + 2)).
  - rewrite (proj2 (Rltb_true (1 - 2) 0)) by lra.
    now replace (1 + 2) with 3 by lra.
  - apply intersect_eval; unfold Spec.tca; vec_simpl; lra.
Qed.

Lemma lamp_outward :
  Spec.outwardNormal lamp (Spec.hitPoint camera_origin camera_direction 3)
  = Vec3.mk 0 0 (-1).
Proof.
  unfold Spec.outwardNormal. rewrite (normalize_eval _ 2).
  - vec_eq.
  - lra.
  - vec_simpl. lra.
Qed.

Lemma lamp_normal :
  Spec.normal camera_direction
    (Spec.outwardNormal lamp (Spec.hitPoint camera_origin camera_direction 3))
  = Vec3.mk 0 0 1.
Proof.
  rewrite lamp_outward. unfold Spec.normal, Spec.inside.
  rewrite (proj2 (Rgtb_true _ _)) by (vec_simpl; lra). vec_eq.
Qed.

Lemma lamp_not_specular depth : ~ Spec.specular lamp depth.
Proof. unfold Spec.specular. vec_simpl. lra. Qed.

Lemma lamp_diffuse :
  Spec.diffuse [lamp] lamp (Spec.hitPoint camera_origin camera_direction 3)
    (Vec3.mk 0 0 1)
  = Vec3.mk 5 5 5.
Proof.
  unfold Spec.diffuse, Spec.indexed. rewrite indexed_from_cons.
  cbn [filter snd Spec.indexed_from combine seq length].
  unfold Spec.isLight.
  rewrite (proj2 (Rgtb_true _ _)) by (vec_simpl; lra).
  cbn [map Spec.vsum fold_right]. unfold Spec.contribution.
  cbn [fst snd]. unfold Spec.transmission, Spec.indexed.
  rewrite indexed_from_cons. cbn [Spec.occluded existsb fst snd Nat.eqb negb
    andb orb Spec.indexed_from combine seq length].
  unfold Spec.lightDir. rewrite (normalize_eval _ 2).
  - rewrite Rmax_right by (vec_simpl; lra). vec_eq.
  - lra.
  - vec_simpl. lra.
Qed.

Lemma lamp_trace depth :
  trace camera_origin camera_direction [lamp] depth
  = Value (Vec3.mk 10 10 10).
Proof.
  rewrite (trace_diffuse _ _ _ _ _ _ _ lamp_nearest (lamp_not_specular depth)).
  cbn [fin]. rewrite lamp_normal, lamp_diffuse. f_equal. vec_eq.
Qed.

(** The grazing ray leaves the glass ball at distance 6. *)
Lemma glass_nearest :
  find_nearest grazing_origin grazing_direction [glass] 0 (INFINITY, None)
  = (Fin 6, Some (0%nat, glass)).
Proof.
  rewrite (find_nearest_single _ _ _ (1 - 5) (1 + 5)).
  - rewrite (proj2 (Rltb_true (1 - 5) 0)) by lra.
    now replace (1 + 5) with 6 by lra.
  - apply intersect_eval; unfold Spec.tca; vec_simpl; lra.
Qed.

Lemma glass_outward :
  Spec.outwardNormal glass
    (Spec.hitPoint grazing_origin grazing_direction 6)
  = Vec3.mk (5 / 13) (-12 / 13) 0.
Proof.
  unfold Spec.outwardNormal. rewrite (normalize_eval _ 13).
  - vec_eq.
  - lra.
  - vec_simpl. lra.
Qed.

Lemma glass_inside :
  Spec.inside grazing_direction
    (Spec.outwardNormal glass
       (Spec.hitPoint grazing_origin grazing_direction 6))
  = true.
Proof.
  rewrite glass_outward. unfold Spec.inside.
  apply Rgtb_true. vec_simpl. lra.
Qed.

Lemma glass_normal :
  Spec.normal grazing_direction
    (Spec.outwardNormal glass
       (Spec.hitPoint grazing_origin grazing_direction 6))
  = Vec3.mk (-5 / 13) (12 / 13) 0.
Proof.
  unfold Spec.normal. rewrite glass_inside, glass_outward. vec_eq.
Qed.

Lemma glass_specular depth : (depth < 5)%Z -> Spec.specular glass depth.
Proof. intros H. split; trivial. right. vec_simpl. lra. Qed.

Lemma glass_k :
  Spec.k (Spec.eta true)
    (Spec.cosi grazing_direction (Vec3.mk (-5 / 13) (12 / 13) 0))
  < 0.
Proof.
  unfold Spec.k, Spec.eta, Spec.ior, Spec.cosi. vec_simpl. simpl pow. lra.
Qed.

(** At [MAX_RAY_DEPTH] and beyond, an invocation answers with a color: the
    background, or the diffuse sum plus the emission. *)
Lemma trace_exhausted o d spheres depth :
  (MAX_RAY_DEPTH <= depth)%Z -> exists c, trace o d spheres depth = Value c.
Proof.
  intros H.
  destruct (find_nearest o d spheres 0 (INFINITY, None))
    as [tnear [[i s]|]] eqn:E.
  - eexists. apply (trace_diffuse _ _ _ _ _ _ _ E).
    unfold Spec.specular, MAX_RAY_DEPTH in *. lia.
  - eexists. apply (trace_miss _ _ _ _ _ E).
Qed.

(** The grazing ray meets the unguarded square root at every depth below
    [MAX_RAY_DEPTH]. *)
Lemma glass_trace depth :
  (depth < 5)%Z ->
  trace grazing_origin grazing_direction [glass] depth
  = (_ <- Spec.reflectionColor [glass] grazing_direction
            (Spec.hitPoint grazing_origin grazing_direction 6)
            (Vec3.mk (-5 / 13) (12 / 13) 0) depth ;;
     SqrtOfNegative
       (Spec.k (Spec.eta true)
          (Spec.cosi grazing_direction (Vec3.mk (-5 / 13) (12 / 13) 0)))).
Proof.
  intros H.
  rewrite (trace_specular_spec _ _ _ _ _ _ _ glass_nearest
             (glass_specular depth H)).
  cbn [fin]. rewrite glass_inside, glass_normal.
  unfold Spec.refractionColor, Spec.refraction, checked_sqrt.
  rewrite (proj2 (Rltb_true _ _) glass_k).
  destruct (Req_dec_T _ 0) as [E|_].
  - exfalso. revert E. vec_simpl. lra.
  - now destruct (Spec.reflectionColor _ _ _ _ _).
Qed.

Lemma bulb_nearest :
  find_nearest camera_origin camera_direction [bulb] 0 (INFINITY, None)
  = (Fin 4, Some (0%nat, bulb)).
Proof.
  rewrite (find_nearest_single _ _ _ (5 - 1) (5 + 1)).
  - rewrite (proj2 (Rltb_false (5 - 1) 0)) by lra.
    now replace (5 - 1) with 4 by lra.
  - apply intersect_eval; unfold Spec.tca; vec_simpl; lra.
Qed.

Lemma mirror_nearest :
  find_nearest camera_origin camera_direction [mirror] 0 (INFINITY, None)
  = (Fin 4, Some (0%nat, mirror)).
Proof.
  rewrite (find_nearest_single _ _ _ (5 - 1) (5 + 1)).
  - rewrite (proj2 (Rltb_false (5 - 1) 0)) by lra.
    now replace (5 - 1) with 4 by lra.
  - apply intersect_eval; unfold Spec.tca; vec_simpl; lra.
Qed.

Lemma lamp_away_miss :
  forall j s', nth_error [lamp] j = Some s' ->
    Spec.effective_distance s' away_origin away_direction = None.
Proof.
  intros [|[|j]] s'; try discriminate. intros [= <-].
  apply (effective_distance_miss _ _ _ INFINITY INFINITY).
  apply intersect_miss. left. unfold Spec.tca. vec_simpl. lra.
Qed.

(** ** What the nearest-hit search selects *)

(** C2: the search of [trace] selects the sphere with the least effective
    distance ([t0], or [t1] when [t0] is negative), the first one of the
    scene among equals; when no sphere has an effective distance, and so for
    the empty scene, [trace] returns the background color [(2,2,2)] at every
    depth and for every ray. *)
Theorem nearest_hit_search (o d : Vec3f) (spheres : list Sphere.t) :
  Spec.nearest o d spheres (find_nearest o d spheres 0 (INFINITY, None))
  /\ ((forall j s', nth_error spheres j = Some s' ->
         Spec.effective_distance s' o d = None) ->
      forall depth, trace o d spheres depth = Value (Vec3.mk 2 2 2))
  /\ (forall depth, trace o d [] depth = Value (Vec3.mk 2 2 2)).
Proof.
  split; [apply find_nearest_spec|]. split.
  - intros No depth. pose proof (find_nearest_spec o d spheres) as N.
    destruct (find_nearest o d spheres 0 (INFINITY, None))
      as [tnear [[i s]|]] eqn:E.
    + destruct N as (Hi & t & _ & Ht & _). rewrite (No _ _ Hi) in Ht.
      discriminate.
    + apply (trace_miss _ _ _ _ _ E).
  - intros depth. now apply (trace_miss _ _ _ _ INFINITY).
Qed.

Lemma nearest_hit_search_witness :
  trace away_origin away_direction [lamp] 0 = Value (Vec3.mk 2 2 2).
Proof.
  apply (proj1 (proj2 (nearest_hit_search away_origin away_direction [lamp]))).
  exact lamp_away_miss.
Defined.

(** C9: when [Sphere::intersect] reports a hit, [tca >= 0] and [thc >= 0],
    so [t1 = tca + thc >= 0]; the effective distance is never negative;
    after every prefix of the scene the loop's [tnear] is not negative or is
    still [INFINITY]; and the distance of a selected hit is not negative. *)
Theorem tnear_nonnegative (o d : Vec3f) :
  (forall s t0 t1 a b,
      Sphere.intersect s o d t0 t1 = (true, a, b) ->
      0 <= Spec.tca s o d /\ 0 <= Spec.thc s o d
      /\ b = Fin (Spec.tca s o d + Spec.thc s o d)
      /\ 0 <= Spec.tca s o d + Spec.thc s o d)
  /\ (forall s t, Spec.effective_distance s o d = Some t -> 0 <= t)
  /\ (forall seen rest,
      Spec.nonnegative (fst (find_nearest o d seen 0 (INFINITY, None)))
      /\ find_nearest o d (seen ++ rest) 0 (INFINITY, None)
         = find_nearest o d rest (length seen)
             (find_nearest o d seen 0 (INFINITY, None)))
  /\ (forall spheres tnear i s,
      find_nearest o d spheres 0 (INFINITY, None) = (tnear, Some (i, s)) ->
      exists t, tnear = Fin t /\ 0 <= t).
Proof.
  split; [|split; [|split]].
  - intros s t0 t1 a b H. apply intersect_true_inv in H.
    destruct H as (H & _ & _ & ->). pose proof (thc_nonneg s o d).
    repeat split; trivial; lra.
  - intros s t. apply effective_distance_nonneg.
  - intros seen rest. split.
    + pose proof (find_nearest_spec o d seen) as N.
      destruct (find_nearest o d seen 0 (INFINITY, None))
        as [tnear [[i s]|]]; simpl in *.
      * destruct N as (_ & t & Et & Ht & _). simpl in Et. subst tnear.
        simpl. eapply effective_distance_nonneg; eauto.
      * destruct N as (Et & _). simpl in Et. now subst tnear.
    + apply (find_nearest_app o d seen rest 0).
  - intros spheres tnear i s. apply find_nearest_finite.
Qed.

Lemma tnear_nonnegative_witness :
  (exists t, Fin 3 = Fin t /\ 0 <= t)
  /\ 0 <= Spec.tca lamp camera_origin camera_direction
          + Spec.thc lamp camera_origin camera_direction
  /\ 0 <= 1 + 2.
Proof.
  assert (I : Sphere.intersect lamp camera_origin camera_direction
                INFINITY INFINITY = (true, Fin (1 - 2), Fin (1 + 2))).
  { apply intersect_eval; unfold Spec.tca; vec_simpl; lra. }
  split; [|split].
  - apply (proj2 (proj2 (proj2
             (tnear_nonnegative camera_origin camera_direction)))
             [lamp] (Fin 3) 0%nat lamp).
    exact lamp_nearest.
  - apply (proj1 (tnear_nonnegative camera_origin camera_direction)
             lamp INFINITY INFINITY (Fin (1 - 2)) (Fin (1 + 2))).
    exact I.
  - apply (proj1 (proj2 (tnear_nonnegative camera_origin camera_direction))
             lamp (1 + 2)).
    unfold Spec.effective_distance. rewrite I.
    now rewrite (proj2 (Rltb_true (1 - 2) 0)) by lra.
Defined.

Lemma intersect_frame_witness :
  (INFINITY = INFINITY /\ Fin 7 = Fin 7)
  /\ Fin (1 - 2) = Fin (Spec.tca lamp camera_origin camera_direction
                        - Spec.thc lamp camera_origin camera_direction).
Proof.
  split.
  - apply (proj1 (intersect_frame lamp away_origin away_direction
                    INFINITY (Fin 7) INFINITY (Fin 7))).
    apply intersect_miss. left. unfold Spec.tca. vec_simpl. lra.
  - apply (proj2 (intersect_frame lamp camera_origin camera_direction
                    INFINITY INFINITY (Fin (1 - 2)) (Fin (1 + 2)))).
    apply intersect_eval; unfold Spec.tca; vec_simpl; lra.
Defined.

(** ** Recursion depth *)

(** The fuel counts nested invocations: one invocation is not enough for the
    grazing ray at depth 0, whose reflection ray needs a second one. *)
Lemma fuel_counts_nesting :
  trace_fuel 1 grazing_origin grazing_direction [glass] 0 = OutOfFuel.
Proof.
  cbn [trace_fuel]. unfold trace_body. rewrite glass_nearest. cbv zeta.
  rewrite hit_geometry.
  now rewrite (proj2 (specular_test glass 0) (glass_specular 0 eq_refl)).
Qed.

(** C3: [trace] terminates on every input: at every depth, one invocation
    more than [MAX_RAY_DEPTH - depth] nested ones are enough.  Its body
    calls [trace] only when [depth < MAX_RAY_DEPTH = 5], and only with
    [depth + 1]; so from a depth that is not negative, where the tracer is
    entered, a chain of nested invocations has at most [MAX_RAY_DEPTH + 1]
    members; from depth 5 on a single invocation is enough, and it takes the
    diffuse branch. *)
Theorem trace_depth_bound (o d : Vec3f) (spheres : list Sphere.t)
    (depth : Z) :
  trace_fuel (S (Z.to_nat (MAX_RAY_DEPTH - depth))) o d spheres depth
  <> OutOfFuel
  /\ (forall rec1 rec2,
        ((depth < MAX_RAY_DEPTH)%Z -> forall o' d',
            rec1 o' d' spheres (depth + 1)%Z
            = rec2 o' d' spheres (depth + 1)%Z) ->
        trace_body rec1 o d spheres depth
        = trace_body rec2 o d spheres depth)
  /\ ((0 <= depth)%Z ->
      trace_fuel (Z.to_nat (MAX_RAY_DEPTH + 1)) o d spheres depth
      = trace o d spheres depth)
  /\ ((MAX_RAY_DEPTH <= depth)%Z ->
      trace_fuel 1 o d spheres depth = trace o d spheres depth
      /\ forall tnear i s,
           find_nearest o d spheres 0 (INFINITY, None)
           = (tnear, Some (i, s)) ->
           let p := Spec.hitPoint o d (fin tnear) in
           let n := Spec.normal d (Spec.outwardNormal s p) in
           trace o d spheres depth
           = Value (Spec.diffuse spheres s p n + Sphere.emissionColor s)%vec).
Proof.
  split; [|split; [|split]].
  - now apply (trace_terminates spheres (Z.to_nat (MAX_RAY_DEPTH - depth))).
  - intros rec1 rec2. apply trace_body_ext.
  - intros H. apply trace_fuel_enough. unfold MAX_RAY_DEPTH. lia.
  - intros H. split.
    + apply trace_fuel_enough. unfold MAX_RAY_DEPTH in *. lia.
    + intros tnear i s E. apply (trace_diffuse _ _ _ _ _ _ _ E).
      unfold Spec.specular, MAX_RAY_DEPTH in *. lia.
Qed.

Lemma trace_depth_bound_witness :
  trace_fuel 6 camera_origin camera_direction [lamp] 0
  = trace camera_origin camera_direction [lamp] 0
  /\ trace_fuel 1 camera_origin camera_direction [lamp] 5
     = trace camera_origin camera_direction [lamp] 5
  /\ trace_body trace camera_origin camera_direction [lamp] 0
     = trace_body (trace_fuel 6) camera_origin camera_direction [lamp] 0.
Proof.
  split; [|split].
  - apply (proj1 (proj2 (proj2
      (trace_depth_bound camera_origin camera_direction [lamp] 0)))).
    lia.
  - apply (proj2 (proj2 (proj2
      (trace_depth_bound camera_origin camera_direction [lamp] 5)))).
    unfold MAX_RAY_DEPTH. lia.
  - apply (proj1 (proj2
      (trace_depth_bound camera_origin camera_direction [lamp] 0))).
    intros _ o' d'. symmetry. apply trace_fuel_enough.
    unfold MAX_RAY_DEPTH. lia.
Defined.

(** ** The diffuse branch and the emission *)

Lemma diffuse_black spheres s p n :
  Sphere.surfaceColor s = Vec3.mk 0 0 0 ->
  Spec.diffuse spheres s p n = Vec3.mk 0 0 0.
Proof.
  intros E. unfold Spec.diffuse.
  induction (filter _ (Spec.indexed spheres)) as [|il l IH]; trivial.
  cbn [map Spec.vsum fold_right]. fold (Spec.vsum (map
    (Spec.contribution spheres s p n) l)). rewrite IH.
  unfold Spec.contribution. rewrite E. apply Vec3_eq; simpl; ring.
Qed.

Lemma lamp_others :
  Spec.diffuse_others [lamp] 0 lamp
    (Spec.hitPoint camera_origin camera_direction 3) (Vec3.mk 0 0 1)
  = Vec3.mk 0 0 0.
Proof.
  unfold Spec.diffuse_others, Spec.indexed. rewrite indexed_from_cons.
  cbn [filter fst snd Nat.eqb negb]. now rewrite andb_false_r.
Qed.

(** C6, as the code has it: in the diffuse branch the surface color is the
    sum, over every sphere of the scene whose emissionColor has a positive
    first component (the sphere that was hit included), of
    [surfaceColor * transmission * max(0, normal . lightDir) *
    light.emissionColor], where [lightDir = normalize(light.center -
    hitPoint)] and [transmission] is 0 when a sphere at another index than
    the light's intersects the ray from [hitPoint + normal * bias] toward
    [lightDir], and 1 otherwise. *)
Theorem diffuse_branch (o d : Vec3f) (spheres : list Sphere.t) (depth : Z)
    (tnear : efloat) (i : nat) (s : Sphere.t) :
  find_nearest o d spheres 0 (INFINITY, None) = (tnear, Some (i, s)) ->
  ~ Spec.specular s depth ->
  let p := Spec.hitPoint o d (fin tnear) in
  let n := Spec.normal d (Spec.outwardNormal s p) in
  trace o d spheres depth
  = Value (Spec.diffuse spheres s p n + Sphere.emissionColor s)%vec
  /\ forall (l : nat) (lightDir : Vec3f),
       let shadowOrigin := (p + n *s Spec.bias)%vec in
       (Spec.transmission spheres l shadowOrigin lightDir = 0
        <-> exists j s', j <> l /\ nth_error spheres j = Some s'
                         /\ Spec.hits s' shadowOrigin lightDir = true)
       /\ (Spec.transmission spheres l shadowOrigin lightDir = 0
           \/ Spec.transmission spheres l shadowOrigin lightDir = 1).
Proof.
  intros H Sp p n. split.
  - apply (trace_diffuse _ _ _ _ _ _ _ H Sp).
  - intros l lightDir shadowOrigin. split.
    + apply transmission_zero_iff.
    + apply transmission_binary.
Qed.

Lemma diffuse_branch_witness :
  let p := Spec.hitPoint camera_origin camera_direction 3 in
  let n := Spec.normal camera_direction (Spec.outwardNormal lamp p) in
  trace camera_origin camera_direction [lamp] 0
  = Value (Spec.diffuse [lamp] lamp p n + Sphere.emissionColor lamp)%vec.
Proof.
  exact (proj1 (diffuse_branch camera_origin camera_direction [lamp] 0
                  (Fin 3) 0%nat lamp lamp_nearest (lamp_not_specular 0))).
Defined.

(** C6, as it is stated, fails for a lamp seen from its inside: the sum over
    every other light is empty, so the claimed result is the emission
    [(5,5,5)], while [trace] returns [(10,10,10)], the lamp lighting its own
    inner surface. *)
Lemma diffuse_others_counterexample :
  let p := Spec.hitPoint camera_origin camera_direction 3 in
  let n := Spec.normal camera_direction (Spec.outwardNormal lamp p) in
  find_nearest camera_origin camera_direction [lamp] 0 (INFINITY, None)
  = (Fin 3, Some (0%nat, lamp))
  /\ ~ Spec.specular lamp 0
  /\ trace camera_origin camera_direction [lamp] 0
     = Value (Vec3.mk 10 10 10)
  /\ Value (Spec.diffuse_others [lamp] 0 lamp p n
            + Sphere.emissionColor lamp)%vec
     = Value (Vec3.mk 5 5 5)
  /\ trace camera_origin camera_direction [lamp] 0
     <> Value (Spec.diffuse_others [lamp] 0 lamp p n
               + Sphere.emissionColor lamp)%vec.
Proof.
  intros p n.
  assert (E : (Spec.diffuse_others [lamp] 0 lamp p n
               + Sphere.emissionColor lamp)%vec = Vec3.mk 5 5 5).
  { unfold n, p. rewrite lamp_normal, lamp_others. vec_eq. }
  split; [exact lamp_nearest|]. split; [apply lamp_not_specular|].
  split; [apply lamp_trace|]. split; [now rewrite E|].
  rewrite E, lamp_trace. intros [= F _ _]. lra.
Qed.

(** C7: in both shading branches [trace] returns the shading result plus the
    emissionColor of the hit sphere; a ray that hits a sphere whose
    emissionColor is [(5,5,5)] and whose surfaceColor, transparency and
    reflection are zero returns exactly [(5,5,5)]. *)
Theorem emission_added (o d : Vec3f) (spheres : list Sphere.t) (depth : Z)
    (tnear : efloat) (i : nat) (s : Sphere.t) :
  find_nearest o d spheres 0 (INFINITY, None) = (tnear, Some (i, s)) ->
  let p := Spec.hitPoint o d (fin tnear) in
  let out := Spec.outwardNormal s p in
  let n := Spec.normal d out in
  (Spec.specular s depth ->
   trace o d spheres depth =
     (reflectionColor <- Spec.reflectionColor spheres d p n depth ;;
      refractionColor <-
        Spec.refractionColor spheres s d p n (Spec.inside d out) depth ;;
      Value (Spec.specularColor s d n reflectionColor refractionColor
             + Sphere.emissionColor s)%vec))
  /\ (~ Spec.specular s depth ->
      trace o d spheres depth
      = Value (Spec.diffuse spheres s p n + Sphere.emissionColor s)%vec)
  /\ (Sphere.emissionColor s = Vec3.mk 5 5 5 ->
      Sphere.surfaceColor s = Vec3.mk 0 0 0 ->
      Sphere.transparency s = 0 ->
      Sphere.reflection s = 0 ->
      trace o d spheres depth = Value (Vec3.mk 5 5 5)).
Proof.
  intros H p out n. split; [|split].
  - apply (trace_specular_spec _ _ _ _ _ _ _ H).
  - apply (trace_diffuse _ _ _ _ _ _ _ H).
  - intros Ee Es Et Er.
    assert (Sp : ~ Spec.specular s depth).
    { unfold Spec.specular. rewrite Et, Er. lra. }
    rewrite (trace_diffuse _ _ _ _ _ _ _ H Sp).
    rewrite diffuse_black, Ee by assumption. f_equal. vec_eq.
Qed.

Lemma emission_added_witness :
  trace camera_origin camera_direction [bulb] 0 = Value (Vec3.mk 5 5 5)
  /\ trace camera_origin camera_direction [lamp] 0
     = Value (Spec.diffuse [lamp] lamp
                (Spec.hitPoint camera_origin camera_direction 3)
                (Spec.normal camera_direction
                   (Spec.outwardNormal lamp
                      (Spec.hitPoint camera_origin camera_direction 3)))
              + Sphere.emissionColor lamp)%vec
  /\ trace grazing_origin grazing_direction [glass] 0 =
     (let p := Spec.hitPoint grazing_origin grazing_direction 6 in
      let out := Spec.outwardNormal glass p in
      let n := Spec.normal grazing_direction out in
      reflectionColor <-
        Spec.reflectionColor [glass] grazing_direction p n 0 ;;
      refractionColor <-
        Spec.refractionColor [glass] glass grazing_direction p n
          (Spec.inside grazing_direction out) 0 ;;
      Value (Spec.specularColor glass grazing_direction n reflectionColor
               refractionColor
             + Sphere.emissionColor glass)%vec).
Proof.
  split; [|split].
  - refine (proj2 (proj2 (emission_added camera_origin camera_direction
                            [bulb] 0 (Fin 4) 0%nat bulb bulb_nearest))
              _ _ _ _); reflexivity.
  - exact (proj1 (proj2 (emission_added camera_origin camera_direction
                           [lamp] 0 (Fin 3) 0%nat lamp lamp_nearest))
             (lamp_not_specular 0)).
  - exact (proj1 (emission_added grazing_origin grazing_direction
                    [glass] 0 (Fin 6) 0%nat glass glass_nearest)
             (glass_specular 0 eq_refl)).
Defined.

(** ** The square root of the refraction *)

(** C8: the refraction code takes [sqrt(k)] without a test on the sign of
    [k].  The grazing ray starts inside the half-transparent ball [glass],
    so [eta = ior = 1.1]; it reaches the refraction code with a negative
    [k]: at depth 4 [trace] ends on exactly this square root, and at
    depth 0 on a square root of some negative number. *)
Theorem refraction_sqrt_unguarded :
  let p := Spec.hitPoint grazing_origin grazing_direction 6 in
  let out := Spec.outwardNormal glass p in
  let n := Spec.normal grazing_direction out in
  let k := Spec.k (Spec.eta (Spec.inside grazing_direction out))
             (Spec.cosi grazing_direction n) in
  find_nearest grazing_origin grazing_direction [glass] 0 (INFINITY, None)
  = (Fin 6, Some (0%nat, glass))
  /\ Sphere.transparency glass > 0
  /\ Spec.inside grazing_direction out = true
  /\ Spec.eta (Spec.inside grazing_direction out) = 1.1
  /\ k < 0
  /\ trace grazing_origin grazing_direction [glass] 4 = SqrtOfNegative k
  /\ exists k', k' < 0
       /\ trace grazing_origin grazing_direction [glass] 0
          = SqrtOfNegative k'.
Proof.
  intros p out n k.
  assert (Hk : k = Spec.k (Spec.eta true)
             (Spec.cosi grazing_direction (Vec3.mk (-5 / 13) (12 / 13) 0))).
  { unfold k, n, out, p. now rewrite glass_inside, glass_normal. }
  split; [exact glass_nearest|].
  split; [vec_simpl; lra|].
  split; [exact glass_inside|].
  split; [unfold out, p; now rewrite glass_inside|].
  split; [rewrite Hk; exact glass_k|].
  split.
  - rewrite glass_trace by lia. rewrite Hk.
    destruct (trace_exhausted
                (Spec.hitPoint grazing_origin grazing_direction 6
                 + Vec3.mk (-5 / 13) (12 / 13) 0 *s Spec.bias)%vec
                (Spec.reflDir grazing_direction
                   (Vec3.mk (-5 / 13) (12 / 13) 0))
                [glass] (4 + 1)%Z) as [c Hc];
      [unfold MAX_RAY_DEPTH; lia|].
    unfold Spec.reflectionColor. now rewrite Hc.
  - rewrite glass_trace by lia. unfold Spec.reflectionColor.
    match goal with |- context [trace ?a ?b ?c ?e] =>
      pose proof (trace_terminates c 5 e a b) as T;
      pose proof (trace_sqrt c 5 e a b) as S;
      destruct (trace a b c e) end; cbn [bind].
    + eexists. split; [exact glass_k | reflexivity].
    + eexists. split; [|reflexivity]. apply S; trivial.
      unfold MAX_RAY_DEPTH. lia.
    + exfalso. apply T; trivial. unfold MAX_RAY_DEPTH. lia.
Qed.

(** ** Geometry of the intersection test *)

Lemma point_distance (o d c : Vec3f) (t : R) :
  Vec3.length2 (o + d *s t - c)
  = Vec3.dot (c - o) (c - o) - 2 * t * Vec3.dot (c - o) d
    + t * t * Vec3.length2 d.
Proof.
  destruct o, d, c. unfold Vec3.length2, Vec3.dot. simpl. ring.
Qed.

Lemma thc_sqr s o d :
  Spec.d2 s o d <= Sphere.radius2 s ->
  Spec.thc s o d * Spec.thc s o d = Sphere.radius2 s - Spec.d2 s o d.
Proof. intros H. unfold Spec.thc. apply sqrt_sqrt. lra. Qed.

Lemma d2_eq s o d :
  Spec.d2 s o d
  = Vec3.dot (Sphere.center s - o) (Sphere.center s - o)
    - Spec.tca s o d * Spec.tca s o d.
Proof. unfold Spec.d2. ring. Qed.

(** X1: for a direction of length 1, both distances of a reported hit are
    distances of points of the sphere: the points [rayorig + raydir * t0]
    and [rayorig + raydir * t1] are at squared distance [radius2] from the
    center. *)
Theorem hit_points_on_sphere (s : Sphere.t) (o d : Vec3f) (t0 t1 : efloat)
    (a b : R) :
  unit_length d ->
  Sphere.intersect s o d t0 t1 = (true, Fin a, Fin b) ->
  Vec3.length2 (o + d *s a - Sphere.center s) = Sphere.radius2 s
  /\ Vec3.length2 (o + d *s b - Sphere.center s) = Sphere.radius2 s.
Proof.
  intros U H. apply intersect_true_inv in H.
  destruct H as (_ & Hd & [= ->] & [= ->]).
  pose proof (thc_sqr _ _ _ Hd) as Q. rewrite d2_eq in Q.
  rewrite !point_distance, U. fold (Spec.tca s o d). split; nra.
Qed.

Lemma hit_points_on_sphere_witness :
  Vec3.length2 (camera_origin + camera_direction *s (1 - 2)
                - Sphere.center lamp) = Sphere.radius2 lamp
  /\ Vec3.length2 (camera_origin + camera_direction *s (1 + 2)
                   - Sphere.center lamp) = Sphere.radius2 lamp.
Proof.
  refine (hit_points_on_sphere lamp camera_origin camera_direction
            INFINITY INFINITY (1 - 2) (1 + 2) _ _).
  - unfold unit_length. vec_simpl. lra.
  - apply intersect_eval; unfold Spec.tca; vec_simpl; lra.
Defined.

(** X2: for a direction of length 1 and a sphere whose center is not behind
    the origin ([tca >= 0]), the test finds every crossing: a point
    [rayorig + raydir * t] of the sphere makes the test report a hit, and
    [t] is one of the two distances it reports. *)
Theorem intersect_complete (s : Sphere.t) (o d : Vec3f) (t0 t1 : efloat)
    (t : R) :
  unit_length d ->
  0 <= Spec.tca s o d ->
  Vec3.length2 (o + d *s t - Sphere.center s) = Sphere.radius2 s ->
  exists a b,
    Sphere.intersect s o d t0 t1 = (true, Fin a, Fin b)
    /\ (t = a \/ t = b).
Proof.
  intros U Ht P. rewrite point_distance, U in P.
  fold (Spec.tca s o d) in P.
  assert (Sq : 0 <= (t - Spec.tca s o d) * (t - Spec.tca s o d))
    by apply Rle_0_sqr.
  assert (Hd : Spec.d2 s o d <= Sphere.radius2 s)
    by (rewrite d2_eq; nra).
  pose proof (thc_sqr _ _ _ Hd) as Q. rewrite d2_eq in Q.
  pose proof (thc_nonneg s o d) as N.
  do 2 eexists. split; [now apply intersect_hit|].
  destruct (Rle_lt_dec (Spec.tca s o d) t); [right | left]; nra.
Qed.

Lemma intersect_complete_witness :
  exists a b,
    Sphere.intersect lamp camera_origin camera_direction INFINITY INFINITY
    = (true, Fin a, Fin b)
    /\ (3 = a \/ 3 = b).
Proof.
  refine (intersect_complete lamp camera_origin camera_direction
            INFINITY INFINITY 3 _ _ _).
  - unfold unit_length. vec_simpl. lra.
  - unfold Spec.tca. vec_simpl. lra.
  - vec_simpl. lra.
Defined.

(** X3: the test does not see a sphere around the origin whose center is
    behind it: for a direction of length 1, an origin strictly inside the
    sphere and [tca < 0], the ray leaves the sphere at a positive distance,
    and the test reports no hit. *)
Theorem intersect_misses_from_inside (s : Sphere.t) (o d : Vec3f)
    (t0 t1 : efloat) :
  unit_length d ->
  Vec3.length2 (Sphere.center s - o) < Sphere.radius2 s ->
  Spec.tca s o d < 0 ->
  Sphere.intersect s o d t0 t1 = (false, t0, t1)
  /\ exists t, 0 < t
       /\ Vec3.length2 (o + d *s t - Sphere.center s) = Sphere.radius2 s.
Proof.
  intros U I Ht. split; [apply intersect_miss; now left|].
  unfold Vec3.length2 in I.
  assert (Hd : Spec.d2 s o d <= Sphere.radius2 s)
    by (rewrite d2_eq; nra).
  pose proof (thc_sqr _ _ _ Hd) as Q. rewrite d2_eq in Q.
  pose proof (thc_nonneg s o d) as N.
  exists (Spec.tca s o d + Spec.thc s o d). split; [nra|].
  rewrite point_distance, U. fold (Spec.tca s o d). nra.
Qed.

Lemma intersect_misses_from_inside_witness :
  Sphere.intersect lamp camera_origin away_direction INFINITY INFINITY
  = (false, INFINITY, INFINITY)
  /\ exists t, 0 < t
       /\ Vec3.length2 (camera_origin + away_direction *s t
                        - Sphere.center lamp) = Sphere.radius2 lamp.
Proof.
  refine (intersect_misses_from_inside lamp camera_origin away_direction
            INFINITY INFINITY _ _ _).
  - unfold unit_length. vec_simpl. lra.
  - vec_simpl. lra.
  - unfold Spec.tca. vec_simpl. lra.
Defined.

(** X4: on a reported hit, the near distance [t0] is negative exactly when
    the origin is strictly inside the sphere, and the two distances are equal
    exactly when the ray is tangent ([d2 = radius2]). *)
Theorem near_distance_sign (s : Sphere.t) (o d : Vec3f) (t0 t1 : efloat)
    (a b : R) :
  Sphere.intersect s o d t0 t1 = (true, Fin a, Fin b) ->
  (a < 0 <-> Vec3.length2 (Sphere.center s - o) < Sphere.radius2 s)
  /\ (a = b <-> Spec.d2 s o d = Sphere.radius2 s).
Proof.
  intros H. apply intersect_true_inv in H.
  destruct H as (Ht & Hd & [= ->] & [= ->]).
  pose proof (thc_sqr _ _ _ Hd) as Q.
  pose proof (thc_nonneg s o d) as N.
  unfold Vec3.length2. pose proof (d2_eq s o d) as E.
  repeat split; intros; nra.
Qed.

Lemma near_distance_sign_witness :
  (1 - 2 < 0
   <-> Vec3.length2 (Sphere.center lamp - camera_origin)
       < Sphere.radius2 lamp)
  /\ (1 - 2 = 1 + 2
      <-> Spec.d2 lamp camera_origin camera_direction = Sphere.radius2 lamp).
Proof.
  refine (near_distance_sign lamp camera_origin camera_direction
            INFINITY INFINITY (1 - 2) (1 + 2) _).
  apply intersect_eval; unfold Spec.tca; vec_simpl; lra.
Defined.

(** ** Geometry at the hit *)

Lemma dot_scale_r (a b : Vec3f) (k : R) :
  Vec3.dot a (b *s k) = Vec3.dot a b * k.
Proof. destruct a, b. unfold Vec3.dot. simpl. ring. Qed.

Lemma dot_neg_r (a b : Vec3f) : Vec3.dot a (- b) = - Vec3.dot a b.
Proof. destruct a, b. unfold Vec3.dot. simpl. ring. Qed.

Lemma dot_comm (a b : Vec3f) : Vec3.dot a b = Vec3.dot b a.
Proof. destruct a, b. unfold Vec3.dot. simpl. ring. Qed.

Lemma length2_neg (a : Vec3f) : Vec3.length2 (- a) = Vec3.length2 a.
Proof. destruct a. unfold Vec3.length2, Vec3.dot. simpl. ring. Qed.

Lemma length2_scale (a : Vec3f) (k : R) :
  Vec3.length2 (a *s k) = Vec3.length2 a * (k * k).
Proof. destruct a. unfold Vec3.length2, Vec3.dot. simpl. ring. Qed.

Lemma dot_hit (o d c : Vec3f) (t : R) :
  Vec3.dot d (o + d *s t - c) = t * Vec3.length2 d - Vec3.dot (c - o) d.
Proof. destruct o, d, c. unfold Vec3.length2, Vec3.dot. simpl. ring. Qed.

Lemma length2_nonneg (a : Vec3f) : 0 <= Vec3.length2 a.
Proof. destruct a. unfold Vec3.length2, Vec3.dot. simpl. nra. Qed.

(** [normalize] gives length 1 to every vector but the zero vector. *)
Lemma normalize_unit (v : Vec3f) :
  0 < Vec3.length2 v -> unit_length (Vec3.normalize v).
Proof.
  intros H. unfold unit_length, Vec3.normalize, Vec3.length.
  rewrite length2_scale.
  pose proof (sqrt_sqrt (Vec3.length2 v) (Rlt_le _ _ H)) as Q.
  pose proof (sqrt_lt_R0 _ H) as P.
  set (r := sqrt (Vec3.length2 v)) in *. rewrite <- Q. field. lra.
Qed.

(** [normalize] leaves a vector of length 1 as it is. *)
Lemma normalize_of_unit (v : Vec3f) :
  unit_length v -> Vec3.normalize v = v.
Proof.
  intros H. unfold Vec3.normalize, Vec3.length. rewrite H, sqrt_1.
  apply Vec3_eq; simpl; field.
Qed.

Lemma cauchy_schwarz (a b : Vec3f) :
  Vec3.dot a b * Vec3.dot a b <= Vec3.length2 a * Vec3.length2 b.
Proof.
  destruct a as [ax ay az], b as [bx by' bz].
  unfold Vec3.length2, Vec3.dot. simpl.
  pose proof (Rle_0_sqr (ax * by' - ay * bx)).
  pose proof (Rle_0_sqr (ay * bz - az * by')).
  pose proof (Rle_0_sqr (az * bx - ax * bz)).
  unfold Rsqr in *. nra.
Qed.

(** The distance of a selected hit is one of the two distances of the
    selected sphere: the far one when the near one is negative. *)
Lemma nearest_distance o d spheres tnear i s :
  find_nearest o d spheres 0 (INFINITY, None) = (tnear, Some (i, s)) ->
  exists a b,
    Sphere.intersect s o d INFINITY INFINITY = (true, Fin a, Fin b)
    /\ tnear = Fin (if a <? 0 then b else a)
    /\ In s spheres.
Proof.
  intros H. pose proof (find_nearest_spec o d spheres) as N.
  rewrite H in N. destruct N as (Hi & t & Ht & E & _). simpl in Ht.
  subst tnear. apply nth_error_In in Hi.
  destruct (Sphere.intersect s o d INFINITY INFINITY) as [[[] x] y] eqn:I.
  - destruct (effective_distance_hit _ _ _ _ _ I) as (a & b & -> & -> & E' & _).
    rewrite E' in E. injection E as <-. eauto.
  - rewrite (effective_distance_miss _ _ _ _ _ I) in E. discriminate.
Qed.

Lemma near_negative_iff s o d t0 t1 a b :
  Sphere.intersect s o d t0 t1 = (true, Fin a, Fin b) ->
  (a < 0 <-> Vec3.length2 (Sphere.center s - o) < Sphere.radius2 s)
  /\ a = Spec.tca s o d - Spec.thc s o d
  /\ b = Spec.tca s o d + Spec.thc s o d
  /\ 0 <= Spec.tca s o d /\ 0 <= Spec.thc s o d.
Proof.
  intros H. apply intersect_true_inv in H.
  destruct H as (Ht & Hd & [= ->] & [= ->]).
  pose proof (thc_sqr _ _ _ Hd) as Q.
  pose proof (thc_nonneg s o d) as N.
  unfold Vec3.length2. pose proof (d2_eq s o d) as E.
  repeat split; intros; nra.
Qed.

(** The hit point of a direction of length 1 is a point of the sphere. *)
Lemma hit_on_sphere o d spheres tnear i s :
  unit_length d ->
  find_nearest o d spheres 0 (INFINITY, None) = (tnear, Some (i, s)) ->
  Vec3.length2 (Spec.hitPoint o d (fin tnear) - Sphere.center s)
  = Sphere.radius2 s.
Proof.
  intros U H. destruct (nearest_distance _ _ _ _ _ _ H) as (a & b & I & -> & _).
  apply intersect_true_inv in I. destruct I as (_ & Hd & [= ->] & [= ->]).
  pose proof (thc_sqr _ _ _ Hd) as Q. rewrite d2_eq in Q.
  unfold Spec.hitPoint. cbn [fin].
  destruct (_ <? 0); rewrite point_distance, U; fold (Spec.tca s o d); nra.
Qed.

Lemma hit_normal_unit o d spheres tnear i s :
  unit_length d -> 0 < Sphere.radius2 s ->
  find_nearest o d spheres 0 (INFINITY, None) = (tnear, Some (i, s)) ->
  let out := Spec.outwardNormal s (Spec.hitPoint o d (fin tnear)) in
  unit_length out /\ unit_length (Spec.normal d out).
Proof.
  intros U R H out.
  assert (Uo : unit_length out).
  { apply normalize_unit. now rewrite (hit_on_sphere _ _ _ _ _ _ U H). }
  split; trivial. unfold Spec.normal.
  destruct (Spec.inside d out); trivial.
  unfold unit_length. now rewrite length2_neg.
Qed.

(** X5: for a direction of length 1 and a selected sphere with
    [radius2 > 0], [trace] sets [inside] (and turns the normal around)
    exactly when the ray origin is strictly inside the selected sphere. *)
Theorem inside_flag_iff (o d : Vec3f) (spheres : list Sphere.t)
    (tnear : efloat) (i : nat) (s : Sphere.t) :
  unit_length d -> 0 < Sphere.radius2 s ->
  find_nearest o d spheres 0 (INFINITY, None) = (tnear, Some (i, s)) ->
  Spec.inside d (Spec.outwardNormal s (Spec.hitPoint o d (fin tnear))) = true
  <-> Vec3.length2 (Sphere.center s - o) < Sphere.radius2 s.
Proof.
  intros U R H. pose proof (hit_on_sphere _ _ _ _ _ _ U H) as P.
  destruct (nearest_distance _ _ _ _ _ _ H) as (a & b & I & E & _).
  destruct (near_negative_iff _ _ _ _ _ _ _ I) as (S & -> & -> & Ht & Hc).
  rewrite <- S. unfold Spec.inside, Spec.outwardNormal, Vec3.normalize,
    Vec3.length. rewrite P, Rgtb_true, dot_scale_r.
  unfold Spec.hitPoint. rewrite dot_hit, U. fold (Spec.tca s o d).
  subst tnear. cbn [fin].
  assert (K : 0 < 1 / sqrt (Sphere.radius2 s)).
  { apply Rdiv_lt_0_compat; [lra | now apply sqrt_lt_R0]. }
  set (k := 1 / sqrt (Sphere.radius2 s)) in *.
  destruct (_ <? 0) eqn:L.
  - apply Rltb_true in L. split; intros _; trivial. nra.
  - apply Rltb_false in L. split; intros G; [exfalso; nra | lra].
Qed.

Lemma inside_flag_iff_witness :
  Spec.inside camera_direction
    (Spec.outwardNormal lamp (Spec.hitPoint camera_origin camera_direction 3))
  = true
  <-> Vec3.length2 (Sphere.center lamp - camera_origin)
      < Sphere.radius2 lamp.
Proof.
  refine (inside_flag_iff camera_origin camera_direction [lamp] (Fin 3)
            0%nat lamp _ _ lamp_nearest).
  - unfold unit_length. vec_simpl. lra.
  - vec_simpl. lra.
Defined.

Lemma unit_camera : unit_length camera_direction.
Proof. unfold unit_length. vec_simpl. lra. Qed.

Lemma unit_grazing : unit_length grazing_direction.
Proof. unfold unit_length. vec_simpl. lra. Qed.

Lemma glass_radius2 : 0 < Sphere.radius2 glass.
Proof. vec_simpl. lra. Qed.

Lemma crystal_nearest :
  find_nearest camera_origin camera_direction [crystal] 0 (INFINITY, None)
  = (Fin 4, Some (0%nat, crystal)).
Proof.
  rewrite (find_nearest_single _ _ _ (5 - 1) (5 + 1)).
  - rewrite (proj2 (Rltb_false (5 - 1) 0)) by lra.
    now replace (5 - 1) with 4 by lra.
  - apply intersect_eval; unfold Spec.tca; vec_simpl; lra.
Qed.


Lemma reflected_length2 (d n : Vec3f) :
  Vec3.length2 (d - n *s 2 *s Vec3.dot d n)
  = Vec3.length2 d - 4 * (Vec3.dot d n * Vec3.dot d n)
    + 4 * (Vec3.dot d n * Vec3.dot d n) * Vec3.length2 n.
Proof. destruct d, n. unfold Vec3.length2, Vec3.dot. simpl. ring. Qed.

Lemma refracted_length2 (d n : Vec3f) (eta c : R) :
  Vec3.length2 (d *s eta + n *s c)
  = eta * eta * Vec3.length2 d + 2 * eta * c * Vec3.dot n d
    + c * c * Vec3.length2 n.
Proof. destruct d, n. unfold Vec3.length2, Vec3.dot. simpl. ring. Qed.

(** X6: at a hit of a ray of length-1 direction on a sphere with
    [radius2 > 0], the reflection direction of line 112 already has length
    1, so [normalize] on line 113 leaves it as it is ("all vectors are
    already normalized"). *)
Theorem reflection_direction_unit (o d : Vec3f) (spheres : list Sphere.t)
    (tnear : efloat) (i : nat) (s : Sphere.t) :
  unit_length d -> 0 < Sphere.radius2 s ->
  find_nearest o d spheres 0 (INFINITY, None) = (tnear, Some (i, s)) ->
  let n := Spec.normal d
             (Spec.outwardNormal s (Spec.hitPoint o d (fin tnear))) in
  let refldir := (d - n *s 2 *s Vec3.dot d n)%vec in
  unit_length refldir /\ Vec3.normalize refldir = refldir.
Proof.
  intros U R H n refldir.
  destruct (hit_normal_unit _ _ _ _ _ _ U R H) as (_ & Un). fold n in Un.
  assert (Ur : unit_length refldir).
  { unfold unit_length, refldir. rewrite reflected_length2, U, Un. ring. }
  split; trivial. now apply normalize_of_unit.
Qed.

Lemma reflection_direction_unit_witness :
  let n := Spec.normal grazing_direction
             (Spec.outwardNormal glass
                (Spec.hitPoint grazing_origin grazing_direction 6)) in
  let refldir :=
    (grazing_direction - n *s 2 *s Vec3.dot grazing_direction n)%vec in
  unit_length refldir /\ Vec3.normalize refldir = refldir.
Proof.
  exact (reflection_direction_unit grazing_origin grazing_direction [glass]
           (Fin 6) 0%nat glass unit_grazing glass_radius2 glass_nearest).
Defined.

(** X7: under the same conditions, when [k >= 0] the refraction direction of
    line 123 already has length 1 before line 124 normalizes it. *)
Theorem refraction_direction_unit (o d : Vec3f) (spheres : list Sphere.t)
    (tnear : efloat) (i : nat) (s : Sphere.t) (eta : R) :
  unit_length d -> 0 < Sphere.radius2 s ->
  find_nearest o d spheres 0 (INFINITY, None) = (tnear, Some (i, s)) ->
  let n := Spec.normal d
             (Spec.outwardNormal s (Spec.hitPoint o d (fin tnear))) in
  let cosi := - Vec3.dot n d in
  let k := 1 - eta * eta * (1 - cosi * cosi) in
  0 <= k ->
  let refrdir := (d *s eta + n *s (eta * cosi - sqrt k))%vec in
  unit_length refrdir /\ Vec3.normalize refrdir = refrdir.
Proof.
  intros U R H n cosi k K refrdir.
  destruct (hit_normal_unit _ _ _ _ _ _ U R H) as (_ & Un). fold n in Un.
  assert (Ur : unit_length refrdir).
  { unfold unit_length, refrdir. rewrite refracted_length2, U, Un.
    pose proof (sqrt_sqrt k K) as Q. unfold k in Q at 3. unfold cosi in *.
    set (q := sqrt k) in *. set (D := Vec3.dot n d) in *. nra. }
  split; trivial. now apply normalize_of_unit.
Qed.

Lemma refraction_direction_unit_witness :
  let n := Spec.normal camera_direction
             (Spec.outwardNormal crystal
                (Spec.hitPoint camera_origin camera_direction 4)) in
  let cosi := - Vec3.dot n camera_direction in
  let k := 1 - 1 / 1.1 * (1 / 1.1) * (1 - cosi * cosi) in
  let refrdir :=
    (camera_direction *s (1 / 1.1) + n *s (1 / 1.1 * cosi - sqrt k))%vec in
  unit_length refrdir /\ Vec3.normalize refrdir = refrdir.
Proof.
  refine (refraction_direction_unit camera_origin camera_direction
            [crystal] (Fin 4) 0%nat crystal (1 / 1.1) unit_camera _
            crystal_nearest _).
  - vec_simpl. lra.
  - match goal with |- context [- Vec3.dot ?n ?d] =>
      pose proof (Rle_0_sqr (- Vec3.dot n d)) as Q;
      set (c := - Vec3.dot n d) in * end.
    unfold Rsqr in Q. nra.
Defined.

(** After line 104 the normal faces the ray, whatever the vectors are. *)
Lemma normal_faces_ray (d out : Vec3f) :
  Vec3.dot d (Spec.normal d out) <= 0.
Proof.
  unfold Spec.normal, Spec.inside. destruct (_ >? 0) eqn:E.
  - apply Rgtb_true in E. rewrite dot_neg_r. lra.
  - now apply Rgtb_false in E.
Qed.

(** X8: [mix] interpolates: for a weight between 0 and 1 the result lies
    between its first two arguments, weight 0 gives the first and weight 1
    the second. *)
Theorem mix_between (a b k : R) :
  0 <= k <= 1 ->
  Rmin a b <= mix a b k <= Rmax a b
  /\ mix a b 0 = a /\ mix a b 1 = b.
Proof.
  intros [K0 K1]. unfold mix, Rmin, Rmax.
  destruct (Rle_dec a b); repeat split; try ring; nra.
Qed.

Lemma mix_between_witness :
  Rmin 0 1 <= mix 0 1 0.1 <= Rmax 0 1
  /\ mix 0 1 0 = 0 /\ mix 0 1 1 = 1.
Proof. apply (mix_between 0 1 0.1). lra. Defined.

(** X9: at a hit of a ray of length-1 direction on a sphere with
    [radius2 > 0], the facing ratio of line 107 is between 0 and 1 and the
    fresnel effect of line 109 between 0.1 and 1. *)
Theorem fresnel_bounds (o d : Vec3f) (spheres : list Sphere.t)
    (tnear : efloat) (i : nat) (s : Sphere.t) :
  unit_length d -> 0 < Sphere.radius2 s ->
  find_nearest o d spheres 0 (INFINITY, None) = (tnear, Some (i, s)) ->
  let n := Spec.normal d
             (Spec.outwardNormal s (Spec.hitPoint o d (fin tnear))) in
  let facingratio := - Vec3.dot d n in
  0 <= facingratio <= 1
  /\ 0.1 <= mix ((1 - facingratio) ^ 3) 1 0.1 <= 1.
Proof.
  intros U R H n facingratio.
  destruct (hit_normal_unit _ _ _ _ _ _ U R H) as (_ & Un). fold n in Un.
  pose proof (normal_faces_ray d
    (Spec.outwardNormal s (Spec.hitPoint o d (fin tnear)))) as F.
  fold n in F. pose proof (cauchy_schwarz d n) as C. rewrite U, Un in C.
  assert (B : 0 <= facingratio <= 1) by (unfold facingratio; nra).
  split; trivial. unfold mix. simpl pow.
  set (u := 1 - facingratio) in *.
  assert (0 <= u <= 1) by (unfold u; lra).
  assert (0 <= u * u <= 1) by nra.
  assert (0 <= u * (u * u) <= 1) by nra.
  nra.
Qed.

Lemma fresnel_bounds_witness :
  let n := Spec.normal grazing_direction
             (Spec.outwardNormal glass
                (Spec.hitPoint grazing_origin grazing_direction 6)) in
  let facingratio := - Vec3.dot grazing_direction n in
  0 <= facingratio <= 1
  /\ 0.1 <= mix ((1 - facingratio) ^ 3) 1 0.1 <= 1.
Proof.
  exact (fresnel_bounds grazing_origin grazing_direction [glass]
           (Fin 6) 0%nat glass unit_grazing glass_radius2 glass_nearest).
Defined.

(** ** When the square root of the refraction is safe *)

Lemma glass_transparent : Sphere.transparency glass > 0.
Proof. vec_simpl. lra. Qed.

Lemma crystal_transparent : Sphere.transparency crystal > 0.
Proof. vec_simpl. lra. Qed.

Lemma trace_refraction o d spheres depth tnear i s :
  find_nearest o d spheres 0 (INFINITY, None) = (tnear, Some (i, s)) ->
  Sphere.transparency s > 0 -> (depth < 5)%Z ->
  let p := Spec.hitPoint o d (fin tnear) in
  let out := Spec.outwardNormal s p in
  let n := Spec.normal d out in
  trace o d spheres depth =
    (reflectionColor <- Spec.reflectionColor spheres d p n depth ;;
     refractionColor <-
       Spec.refraction spheres d p n (Spec.inside d out) depth ;;
     Value (Spec.specularColor s d n reflectionColor refractionColor
            + Sphere.emissionColor s)%vec).
Proof.
  intros H Ht Hd p out n.
  assert (Sp : Spec.specular s depth) by (split; auto).
  rewrite (trace_specular_spec _ _ _ _ _ _ _ H Sp).
  unfold Spec.refractionColor.
  destruct (Req_dec_T (Sphere.transparency s) 0) as [E|_]; [lra|].
  reflexivity.
Qed.








(** ** Scenes without lights, without glass, without mirrors *)

Lemma indexed_from_snd_in i l : forall il,
  In il (Spec.indexed_from i l) -> In (snd il) l.
Proof.
  intros [j s] H. unfold Spec.indexed_from in H.
  now apply in_combine_r in H.
Qed.

Lemma filter_none {A : Type} (f : A -> bool) (l : list A) :
  (forall a, In a l -> f a = false) -> filter f l = [].
Proof.
  induction l as [|a l IH]; intros H; trivial. simpl.
  rewrite (H a) by now left. apply IH. intros b Hb. apply H. now right.
Qed.

Lemma no_light_diffuse spheres s p n :
  (forall s', In s' spheres -> Vec3.x (Sphere.emissionColor s') <= 0) ->
  Spec.diffuse spheres s p n = Vec3.mk 0 0 0.
Proof.
  intros No. unfold Spec.diffuse, Spec.indexed.
  rewrite filter_none; trivial.
  intros il Hil. apply indexed_from_snd_in in Hil.
  apply Rgtb_false. now apply No.
Qed.

Lemma wall_nearest :
  find_nearest camera_origin camera_direction [wall] 0 (INFINITY, None)
  = (Fin 4, Some (0%nat, wall)).
Proof.
  rewrite (find_nearest_single _ _ _ (5 - 1) (5 + 1)).
  - rewrite (proj2 (Rltb_false (5 - 1) 0)) by lra.
    now replace (5 - 1) with 4 by lra.
  - apply intersect_eval; unfold Spec.tca; vec_simpl; lra.
Qed.

Lemma wall_not_specular depth : ~ Spec.specular wall depth.
Proof. unfold Spec.specular. vec_simpl. lra. Qed.

(** X13: in a scene where no sphere has a positive [emissionColor.x], a hit
    that takes the diffuse branch returns the [emissionColor] of the hit
    sphere and nothing else. *)
Theorem unlit_scene (o d : Vec3f) (spheres : list Sphere.t) (depth : Z)
    (tnear : efloat) (i : nat) (s : Sphere.t) :
  find_nearest o d spheres 0 (INFINITY, None) = (tnear, Some (i, s)) ->
  ~ Spec.specular s depth ->
  (forall s', In s' spheres -> Vec3.x (Sphere.emissionColor s') <= 0) ->
  trace o d spheres depth = Value (Sphere.emissionColor s).
Proof.
  intros H Sp No. rewrite (trace_diffuse _ _ _ _ _ _ _ H Sp).
  rewrite no_light_diffuse by assumption. f_equal.
  apply Vec3_eq; simpl; ring.
Qed.

Lemma unlit_scene_witness :
  trace camera_origin camera_direction [wall] 0
  = Value (Sphere.emissionColor wall).
Proof.
  refine (unlit_scene camera_origin camera_direction [wall] 0 (Fin 4) 0%nat
            wall wall_nearest (wall_not_specular 0) _).
  intros s' [<-|[]]. vec_simpl. lra.
Defined.

Lemma specular_dec s depth : {Spec.specular s depth} + {~ Spec.specular s depth}.
Proof.
  destruct (((Sphere.transparency s >? 0) || (Sphere.reflection s >? 0))
            && (depth <? MAX_RAY_DEPTH)%Z) eqn:E.
  - left. now apply specular_test.
  - right. now apply specular_test_false.
Qed.

Lemma opaque_value spheres :
  (forall s, In s spheres -> Sphere.transparency s = 0) ->
  forall n depth o d,
    (Z.to_nat (MAX_RAY_DEPTH - depth) <= n)%nat ->
    exists c, trace o d spheres depth = Value c.
Proof.
  intros Op. induction n as [|n IH]; intros depth o d Hn;
    destruct (find_nearest o d spheres 0 (INFINITY, None))
      as [tnear [[i s]|]] eqn:E;
    try (eexists; apply (trace_miss _ _ _ _ _ E));
    (destruct (specular_dec s depth) as [Sp|Sp];
     [|eexists; apply (trace_diffuse _ _ _ _ _ _ _ E Sp)]).
  - destruct Sp as (_ & Sd). unfold MAX_RAY_DEPTH in *. lia.
  - rewrite (trace_specular_spec _ _ _ _ _ _ _ E Sp).
    destruct (nearest_distance _ _ _ _ _ _ E) as (_ & _ & _ & _ & Hs).
    unfold Spec.reflectionColor at 1.
    match goal with |- context [trace ?a ?b spheres (depth + 1)%Z] =>
      destruct (IH (depth + 1)%Z a b) as [c Hc] end.
    { destruct Sp as (_ & Sd). unfold MAX_RAY_DEPTH in *. lia. }
    rewrite Hc. cbn [bind]. unfold Spec.refractionColor.
    destruct (Req_dec_T (Sphere.transparency s) 0) as [_|F];
      [|now rewrite (Op s Hs) in F].
    cbn [bind]. eauto.
Qed.

(** X14: the unguarded square root is out of reach without transparency: in
    a scene whose spheres all have [transparency = 0], [trace] returns a
    color for every ray and at every depth. *)
Theorem opaque_scene_returns_color (o d : Vec3f) (spheres : list Sphere.t)
    (depth : Z) :
  (forall s, In s spheres -> Sphere.transparency s = 0) ->
  exists c, trace o d spheres depth = Value c.
Proof.
  intros Op.
  now apply (opaque_value spheres Op (Z.to_nat (MAX_RAY_DEPTH - depth))).
Qed.

Lemma opaque_scene_returns_color_witness :
  exists c, trace camera_origin camera_direction [mirror] 0 = Value c.
Proof.
  refine (opaque_scene_returns_color camera_origin camera_direction
            [mirror] 0 _).
  intros s [<-|[]]. reflexivity.
Defined.

Lemma trace_body_miss rec o d spheres depth tnear :
  find_nearest o d spheres 0 (INFINITY, None) = (tnear, None) ->
  trace_body rec o d spheres depth = Value Spec.background.
Proof. intros H. unfold trace_body. now rewrite H. Qed.

Lemma trace_body_local rec o d spheres depth tnear i s :
  find_nearest o d spheres 0 (INFINITY, None) = (tnear, Some (i, s)) ->
  ~ Spec.specular s depth ->
  let p := Spec.hitPoint o d (fin tnear) in
  let n := Spec.normal d (Spec.outwardNormal s p) in
  trace_body rec o d spheres depth
  = Value (light_loop spheres s p n Spec.bias spheres 0 (Vec3.splat 0)
           + Sphere.emissionColor s)%vec.
Proof.
  intros H Sp p n. unfold trace_body.
  rewrite H. cbv zeta. rewrite hit_geometry.
  rewrite (proj2 (specular_test_false s depth) Sp). reflexivity.
Qed.

(** X15: a scene without glass and mirrors needs no recursion: when every
    sphere has [transparency <= 0] and [reflection <= 0], the result of
    [trace] is a color that does not depend on [depth], and a single
    invocation computes it. *)
Theorem matte_scene_ignores_depth (o d : Vec3f) (spheres : list Sphere.t) :
  (forall s, In s spheres ->
     Sphere.transparency s <= 0 /\ Sphere.reflection s <= 0) ->
  exists c, forall depth,
    trace o d spheres depth = Value c
    /\ trace_fuel 1 o d spheres depth = Value c.
Proof.
  intros M.
  destruct (find_nearest o d spheres 0 (INFINITY, None))
    as [tnear [[i s]|]] eqn:E.
  - destruct (nearest_distance _ _ _ _ _ _ E) as (_ & _ & _ & _ & Hs).
    assert (Sp : forall depth, ~ Spec.specular s depth).
    { intros depth ([R|T] & _); destruct (M s Hs); lra. }
    eexists. intros depth. split.
    + apply (trace_local _ _ _ _ _ _ _ E (Sp depth)).
    + cbn [trace_fuel]. apply (trace_body_local _ _ _ _ _ _ _ _ E (Sp depth)).
  - eexists. intros depth. split.
    + apply (trace_miss _ _ _ _ _ E).
    + cbn [trace_fuel]. apply (trace_body_miss _ _ _ _ _ _ E).
Qed.

Lemma matte_scene_ignores_depth_witness :
  exists c, forall depth,
    trace camera_origin camera_direction [lamp; wall] depth = Value c
    /\ trace_fuel 1 camera_origin camera_direction [lamp; wall] depth
       = Value c.
Proof.
  refine (matte_scene_ignores_depth camera_origin camera_direction
            [lamp; wall] _).
  intros s [<-|[<-|[]]]; vec_simpl; lra.
Defined.

(** ** The order of the scene *)

(** What the search returns as [tnear], read on the set of spheres. *)
Lemma nearest_least o d spheres :
  match fst (find_nearest o d spheres 0 (INFINITY, None)) with
  | INFINITY =>
      forall s, In s spheres -> Spec.effective_distance s o d = None
  | Fin t =>
      (exists s, In s spheres /\ Spec.effective_distance s o d = Some t)
      /\ forall s t', In s spheres ->
           Spec.effective_distance s o d = Some t' -> t <= t'
  end.
Proof.
  pose proof (find_nearest_spec o d spheres) as N.
  destruct (find_nearest o d spheres 0 (INFINITY, None))
    as [tnear [[i s]|]]; unfold Spec.nearest in N; cbn [fst snd] in *.
  - destruct N as (Hi & t & -> & E & Min). split.
    + exists s. split; trivial. eapply nth_error_In; eauto.
    + intros s' t' Hs' E'. apply In_nth_error in Hs'.
      destruct Hs' as [j Hj]. now destruct (Min _ _ _ Hj E').
  - destruct N as (-> & No). intros s Hs. apply In_nth_error in Hs.
    destruct Hs as [j Hj]. eauto.
Qed.

(** X16: the distance [tnear] that the search of lines 80-89 ends with does
    not depend on the order of the spheres in the scene. *)
Theorem nearest_distance_permutation (o d : Vec3f)
    (spheres spheres' : list Sphere.t) :
  Permutation spheres spheres' ->
  fst (find_nearest o d spheres 0 (INFINITY, None))
  = fst (find_nearest o d spheres' 0 (INFINITY, None)).
Proof.
  intros P. pose proof (nearest_least o d spheres) as A.
  pose proof (nearest_least o d spheres') as B.
  destruct (fst (find_nearest o d spheres 0 _)) as [t|];
    destruct (fst (find_nearest o d spheres' 0 _)) as [t'|]; trivial.
  - destruct A as ((s & Hs & E) & MinA), B as ((s' & Hs' & E') & MinB).
    apply (Permutation_in _ P) in Hs.
    apply (Permutation_in _ (Permutation_sym P)) in Hs'.
    pose proof (MinA _ _ Hs' E'). pose proof (MinB _ _ Hs E).
    f_equal. lra.
  - destruct A as ((s & Hs & E) & _).
    apply (Permutation_in _ P) in Hs. rewrite (B _ Hs) in E. discriminate.
  - destruct B as ((s' & Hs' & E') & _).
    apply (Permutation_in _ (Permutation_sym P)) in Hs'.
    rewrite (A _ Hs') in E'. discriminate.
Qed.

Lemma nearest_distance_permutation_witness :
  fst (find_nearest camera_origin camera_direction [lamp; wall] 0
         (INFINITY, None))
  = fst (find_nearest camera_origin camera_direction [wall; lamp] 0
           (INFINITY, None)).
Proof.
  apply (nearest_distance_permutation camera_origin camera_direction
           [lamp; wall] [wall; lamp]).
  apply perm_swap.
Defined.

(** ** render *)

Lemma flat_map_rows {A : Type} (f : nat -> list A) (w : nat) :
  (forall y, length (f y) = w) ->
  forall h a,
    length (flat_map f (seq a h)) = (h * w)%nat
    /\ forall x y, (x < w)%nat -> (y < h)%nat ->
         nth_error (flat_map f (seq a h)) (y * w + x)
         = nth_error (f (a + y)%nat) x.
Proof.
  intros L. induction h as [|h IH]; intros a.
  - split; trivial. intros x y _ Hy. lia.
  - destruct (IH (S a)) as (Len & Nth). cbn [seq flat_map]. split.
    + rewrite length_app, L, Len. lia.
    + intros x [|y] Hx Hy.
      * rewrite Nat.add_0_r. cbn [Nat.mul Nat.add].
        rewrite nth_error_app1 by (rewrite L; lia). reflexivity.
      * rewrite nth_error_app2 by (rewrite L; lia).
        replace (S y * w + x - length (f a))%nat with (y * w + x)%nat
          by (rewrite L; lia).
        rewrite Nth by lia. f_equal. f_equal. lia.
Qed.

(** X17: [render] fills the image row by row: it holds [width * height]
    pixels, and the pixel of index [y * width + x] is the result of [trace]
    from the origin, at depth 0, along the camera ray of [(x, y)]. *)
Theorem render_image_layout (width height : nat) (spheres : list Sphere.t)
    (x y : nat) :
  (x < width)%nat -> (y < height)%nat ->
  length (render_image width height spheres) = (height * width)%nat
  /\ nth_error (render_image width height spheres) (y * width + x)
     = Some (trace (Vec3.splat 0) (camera_raydir width height x y)
               spheres 0).
Proof.
  intros Hx Hy. unfold render_image.
  destruct (flat_map_rows
    (fun y => map (fun x => trace (Vec3.splat 0)
                              (camera_raydir width height x y) spheres 0)
                (seq 0 width)) width) with (h := height) (a := 0%nat)
    as (Len & Nth).
  { intros y'. now rewrite length_map, length_seq. }
  split; trivial. rewrite (Nth x y Hx Hy). cbn [Nat.add].
  rewrite nth_error_map, nth_error_seq.
  destruct (Nat.ltb_spec x width); [reflexivity | lia].
Qed.

Lemma render_image_layout_witness :
  length (render_image 3 2 [lamp]) = (2 * 3)%nat
  /\ nth_error (render_image 3 2 [lamp]) (1 * 3 + 2)
     = Some (trace (Vec3.splat 0) (camera_raydir 3 2 2 1) [lamp] 0).
Proof. apply (render_image_layout 3 2 [lamp] 2 1); lia. Defined.

(** X18: every camera ray of [render] has a direction of length 1 that
    points into the scene (negative z), whatever the image size and the
    pixel. *)
Theorem camera_raydir_unit (width height x y : nat) :
  unit_length (camera_raydir width height x y)
  /\ Vec3.z (camera_raydir width height x y) < 0.
Proof.
  unfold camera_raydir. cbv zeta.
  set (v := Vec3.mk _ _ (-1)).
  assert (L : 0 < Vec3.length2 v).
  { unfold v, Vec3.length2, Vec3.dot. cbn [Vec3.x Vec3.y Vec3.z].
    match goal with |- 0 < ?a * ?a + ?b * ?b + _ =>
      pose proof (Rle_0_sqr a); pose proof (Rle_0_sqr b) end.
    unfold Rsqr in *. lra. }
  split; [now apply normalize_unit|].
  unfold Vec3.normalize, Vec3.length. cbn [Vec3.z Vec3.scale v].
  pose proof (sqrt_lt_R0 _ L) as P.
  assert (0 < 1 / sqrt (Vec3.length2 v))
    by (apply Rdiv_lt_0_compat; lra).
  nra.
Qed.

Lemma truncate_nonneg (f : R) :
  0 <= f ->
  (0 <= truncate f)%Z /\ IZR (truncate f) <= f < IZR (truncate f) + 1.
Proof.
  intros H. unfold truncate.
  rewrite (proj2 (Rltb_false f 0) H).
  destruct (base_Int_part f) as (Lo & Hi). repeat split; try lra.
  apply Z.lt_succ_r, lt_IZR. rewrite succ_IZR. lra.
Qed.

(** X19: the byte written for a color component that is not negative is
    defined and lies between 0 and 255; it is 255 for every component from
    1 on (the background 2 included), the integer part of [255 * c] below
    1, and it grows with the component. *)
Theorem channel_byte_range (c c' : R) :
  0 <= c <= c' ->
  exists b b',
    channel_byte c = Some b /\ channel_byte c' = Some b'
    /\ (0 <= b <= b')%Z /\ (b' <= 255)%Z
    /\ (1 <= c -> b = 255%Z)
    /\ (c < 1 -> IZR b <= 255 * c < IZR b + 1).
Proof.
  intros [C0 Cc].
  assert (F : forall v, 0 <= v ->
            0 <= Rmin 1 v * 255 <= 255
            /\ (1 <= v -> Rmin 1 v * 255 = 255)
            /\ (v < 1 -> Rmin 1 v * 255 = 255 * v)).
  { intros v V. unfold Rmin. destruct (Rle_dec 1 v); repeat split; lra. }
  destruct (F c C0) as ((Lc & Hc) & Ec1 & Ec2).
  destruct (F c' (Rle_trans _ _ _ C0 Cc)) as ((Lc' & Hc') & _).
  destruct (truncate_nonneg _ Lc) as (Tc & Bc & Uc).
  destruct (truncate_nonneg _ Lc') as (Tc' & Bc' & Uc').
  assert (M : Rmin 1 c * 255 <= Rmin 1 c' * 255).
  { apply Rmult_le_compat_r; [lra|]. apply Rle_min_compat_l. exact Cc. }
  assert (Rc : (truncate (Rmin 1 c * 255) <= 255)%Z) by (apply le_IZR; lra).
  assert (Rc' : (truncate (Rmin 1 c' * 255) <= 255)%Z) by (apply le_IZR; lra).
  assert (Mo : (truncate (Rmin 1 c * 255) <= truncate (Rmin 1 c' * 255))%Z).
  { apply Z.lt_succ_r, lt_IZR. rewrite succ_IZR. lra. }
  exists (truncate (Rmin 1 c * 255)), (truncate (Rmin 1 c' * 255)).
  unfold channel_byte, to_uchar.
  rewrite (proj2 (Z.leb_le _ _) Tc), (proj2 (Z.leb_le _ _) Rc).
  rewrite (proj2 (Z.leb_le _ _) Tc'), (proj2 (Z.leb_le _ _) Rc').
  cbn [andb]. do 2 (split; [reflexivity|]).
  split; [lia|]. split; [exact Rc'|]. split; intros C1.
  - rewrite (Ec1 C1) in *. apply Z.le_antisymm; trivial.
    apply Z.lt_succ_r, lt_IZR. rewrite succ_IZR. lra.
  - rewrite (Ec2 C1) in *. split; [exact Bc | exact Uc].
Qed.

Lemma channel_byte_range_witness :
  exists b b',
    channel_byte 0 = Some b /\ channel_byte 2 = Some b'
    /\ (0 <= b <= b')%Z /\ (b' <= 255)%Z
    /\ (1 <= 0 -> b = 255%Z)
    /\ (0 < 1 -> IZR b <= 255 * 0 < IZR b + 1).
Proof. apply (channel_byte_range 0 2). lra. Defined.

(** ** The specular branch *)

Lemma find_nearest_single_miss o d s t0 t1 :
  Sphere.intersect s o d INFINITY INFINITY = (false, t0, t1) ->
  find_nearest o d [s] 0 (INFINITY, None) = (INFINITY, None).
Proof. intros H. cbn [find_nearest]. now rewrite H. Qed.

(** The camera ray meets a ball of radius 1 around [(0,0,-5)] head-on. *)
Section FrontBall.

Variable b : Sphere.t.
Hypothesis center_b : Sphere.center b = Vec3.mk 0 0 (-5).
Hypothesis radius2_b : Sphere.radius2 b = 1 * 1.

Let front : Vec3f := Spec.hitPoint camera_origin camera_direction 4.

Lemma front_outward : Spec.outwardNormal b front = Vec3.mk 0 0 1.
Proof.
  unfold Spec.outwardNormal, front. rewrite center_b, (normalize_eval _ 1).
  - vec_eq.
  - lra.
  - vec_simpl. lra.
Qed.

Lemma front_inside :
  Spec.inside camera_direction (Spec.outwardNormal b front) = false.
Proof.
  rewrite front_outward. unfold Spec.inside. apply Rgtb_false.
  vec_simpl. lra.
Qed.

Lemma front_normal :
  Spec.normal camera_direction (Spec.outwardNormal b front) = Vec3.mk 0 0 1.
Proof. unfold Spec.normal. now rewrite front_inside, front_outward. Qed.

Lemma front_reflDir :
  Spec.reflDir camera_direction (Vec3.mk 0 0 1) = Vec3.mk 0 0 1.
Proof.
  unfold Spec.reflDir. rewrite (normalize_eval _ 1).
  - vec_eq.
  - lra.
  - vec_simpl. lra.
Qed.

(** The reflection ray leaves the ball behind. *)
Lemma front_reflection depth :
  Spec.reflectionColor [b] camera_direction front
    (Spec.normal camera_direction (Spec.outwardNormal b front)) depth
  = Value (Vec3.mk 2 2 2).
Proof.
  rewrite front_normal. unfold Spec.reflectionColor. rewrite front_reflDir.
  apply (trace_miss _ _ _ _ INFINITY).
  apply (find_nearest_single_miss _ _ _ INFINITY INFINITY).
  apply intersect_miss. left. unfold Spec.tca, front, Spec.bias.
  rewrite center_b. vec_simpl. lra.
Qed.

Lemma front_cosi_k :
  Spec.k (Spec.eta false) (Spec.cosi camera_direction (Vec3.mk 0 0 1)) = 1.
Proof.
  unfold Spec.k, Spec.eta, Spec.ior, Spec.cosi. vec_simpl. simpl pow. lra.
Qed.

Lemma front_refrDir :
  Spec.refrDir camera_direction (Vec3.mk 0 0 1) (Spec.eta false)
    (Spec.cosi camera_direction (Vec3.mk 0 0 1))
  = Vec3.mk 0 0 (-1).
Proof.
  unfold Spec.refrDir. rewrite front_cosi_k, sqrt_1.
  unfold Spec.eta, Spec.ior, Spec.cosi. rewrite (normalize_eval _ 1).
  - vec_eq.
  - lra.
  - vec_simpl. lra.
Qed.

(** The refraction ray crosses the ball and meets its far side from
    inside. *)
Lemma front_refraction_nearest :
  find_nearest (front - Vec3.mk 0 0 1 *s Spec.bias)%vec (Vec3.mk 0 0 (-1))
    [b] 0 (INFINITY, None)
  = (Fin (1 - 1e-4 + 1), Some (0%nat, b)).
Proof.
  rewrite (find_nearest_single _ _ _ (1 - 1e-4 - 1) (1 - 1e-4 + 1)).
  - now rewrite (proj2 (Rltb_true (1 - 1e-4 - 1) 0)) by lra.
  - apply intersect_eval; unfold Spec.tca, front, Spec.bias;
      rewrite ?center_b, ?radius2_b; vec_simpl; lra.
Qed.

End FrontBall.

Lemma mirror_color :
  (Spec.specularColor mirror camera_direction
     (Spec.normal camera_direction
        (Spec.outwardNormal mirror
           (Spec.hitPoint camera_origin camera_direction 4)))
     (Vec3.mk 2 2 2) (Vec3.mk 0 0 0)
   + Sphere.emissionColor mirror)%vec
  = Vec3.mk 0.2 0.2 0.2.
Proof.
  rewrite (front_normal mirror eq_refl).
  unfold Spec.specularColor, Spec.fresnel, Spec.mix, Spec.facingRatio.
  apply Vec3_eq; vec_simpl; simpl pow; lra.
Qed.

Lemma crystal_color :
  (Spec.specularColor crystal camera_direction
     (Spec.normal camera_direction
        (Spec.outwardNormal crystal
           (Spec.hitPoint camera_origin camera_direction 4)))
     (Vec3.mk 2 2 2) (Vec3.mk 0 0 0)
   + Sphere.emissionColor crystal)%vec
  = Vec3.mk 0.2 0.2 0.2.
Proof.
  rewrite (front_normal crystal eq_refl).
  unfold Spec.specularColor, Spec.fresnel, Spec.mix, Spec.facingRatio.
  apply Vec3_eq; vec_simpl; simpl pow; lra.
Qed.

Lemma mirror_refraction depth :
  Spec.refractionColor [mirror] mirror camera_direction
    (Spec.hitPoint camera_origin camera_direction 4)
    (Spec.normal camera_direction
       (Spec.outwardNormal mirror
          (Spec.hitPoint camera_origin camera_direction 4)))
    (Spec.inside camera_direction
       (Spec.outwardNormal mirror
          (Spec.hitPoint camera_origin camera_direction 4)))
    depth
  = Value (Vec3.mk 0 0 0).
Proof.
  unfold Spec.refractionColor.
  destruct (Req_dec_T (Sphere.transparency mirror) 0) as [_|F]; trivial.
  exfalso. now apply F.
Qed.

(** At depth 5 the refraction ray through [crystal] ends in the diffuse
    branch of an unlit scene. *)
Lemma crystal_refraction :
  let p := Spec.hitPoint camera_origin camera_direction 4 in
  let out := Spec.outwardNormal crystal p in
  let n := Spec.normal camera_direction out in
  trace (p - n *s Spec.bias)%vec
    (Spec.refrDir camera_direction n
       (Spec.eta (Spec.inside camera_direction out))
       (Spec.cosi camera_direction n))
    [crystal] (4 + 1)%Z
  = Value (Vec3.mk 0 0 0).
Proof.
  cbv zeta. rewrite (front_normal crystal eq_refl),
    (front_inside crystal eq_refl), front_refrDir.
  rewrite (trace_diffuse _ _ _ _ _ _ _
             (front_refraction_nearest crystal eq_refl eq_refl)).
  - rewrite no_light_diffuse.
    + f_equal. vec_eq.
    + intros s' [<-|[]]. vec_simpl. lra.
  - intros (_ & F). lia.
Qed.

(** C4: when the hit sphere has [reflection > 0] or [transparency > 0] and
    [depth < 5], [trace] recurses along [reflDir] from
    [hitPoint + normal * bias] at [depth + 1] with [bias = 1e-4], and with
    the colors [reflectionColor] and [refractionColor] that come back it
    returns [(reflectionColor * fresnel + refractionColor * (1 - fresnel) *
    transparency) * surfaceColor] plus the emission, where
    [fresnel = mix((1 - facingRatio)^3, 1, 0.1)]; [refractionColor] is the
    zero vector when [transparency = 0]; and in a scene without
    transparency the reflection ray does return a color, so that [trace]
    returns this color. *)
Theorem specular_branch (o d : Vec3f) (spheres : list Sphere.t) (depth : Z)
    (tnear : efloat) (i : nat) (s : Sphere.t) :
  find_nearest o d spheres 0 (INFINITY, None) = (tnear, Some (i, s)) ->
  Sphere.reflection s > 0 \/ Sphere.transparency s > 0 ->
  (depth < 5)%Z ->
  let p := Spec.hitPoint o d (fin tnear) in
  let out := Spec.outwardNormal s p in
  let n := Spec.normal d out in
  let facingRatio := - Vec3.dot d n in
  let fresnel := 1 * 0.1 + (1 - facingRatio) ^ 3 * (1 - 0.1) in
  let reflDir :=
    Vec3.normalize (d - n *s (2 * Vec3.dot d n)) in
  let result := fun reflectionColor refractionColor : Vec3f =>
    ((reflectionColor *s fresnel
      + refractionColor *s (1 - fresnel) *s Sphere.transparency s)
     * Sphere.surfaceColor s + Sphere.emissionColor s)%vec in
  (forall reflectionColor refractionColor : Vec3f,
      trace (p + n *s 1e-4)%vec reflDir spheres (depth + 1)%Z
      = Value reflectionColor ->
      Spec.refractionColor spheres s d p n (Spec.inside d out) depth
      = Value refractionColor ->
      trace o d spheres depth
      = Value (result reflectionColor refractionColor))
  /\ (Sphere.transparency s = 0 ->
      Spec.refractionColor spheres s d p n (Spec.inside d out) depth
      = Value (Vec3.mk 0 0 0))
  /\ ((forall s', In s' spheres -> Sphere.transparency s' = 0) ->
      exists reflectionColor : Vec3f,
        trace (p + n *s 1e-4)%vec reflDir spheres (depth + 1)%Z
        = Value reflectionColor
        /\ trace o d spheres depth
           = Value (result reflectionColor (Vec3.mk 0 0 0))).
Proof.
  intros H Hm Hd p out n facingRatio fresnel reflDir result.
  assert (Sp : Spec.specular s depth) by now split.
  pose proof (trace_specular_spec _ _ _ _ _ _ _ H Sp) as T.
  change (trace o d spheres depth =
    (reflectionColor <- Spec.reflectionColor spheres d p n depth ;;
     refractionColor <-
       Spec.refractionColor spheres s d p n (Spec.inside d out) depth ;;
     Value (Spec.specularColor s d n reflectionColor refractionColor
            + Sphere.emissionColor s)%vec)) in T.
  assert (Z0 : Sphere.transparency s = 0 ->
               Spec.refractionColor spheres s d p n (Spec.inside d out) depth
               = Value (Vec3.mk 0 0 0)).
  { intros E. unfold Spec.refractionColor.
    now destruct (Req_dec_T (Sphere.transparency s) 0). }
  assert (A : forall reflectionColor refractionColor : Vec3f,
      trace (p + n *s 1e-4)%vec reflDir spheres (depth + 1)%Z
      = Value reflectionColor ->
      Spec.refractionColor spheres s d p n (Spec.inside d out) depth
      = Value refractionColor ->
      trace o d spheres depth
      = Value (result reflectionColor refractionColor)).
  { intros rc fc Hr Hf.
    change (Spec.reflectionColor spheres d p n depth = Value rc) in Hr.
    now rewrite T, Hr, Hf. }
  split; [exact A|]. split; [exact Z0|].
  intros Op.
  destruct (opaque_value spheres Op (Z.to_nat (MAX_RAY_DEPTH - (depth + 1)))
              (depth + 1)%Z (p + n *s 1e-4)%vec reflDir (Nat.le_refl _))
    as [rc Hr].
  exists rc. split; trivial. apply A; trivial. apply Z0.
  destruct (nearest_distance _ _ _ _ _ _ H) as (_ & _ & _ & _ & Hs).
  now apply Op.
Qed.

Lemma specular_branch_witness :
  trace camera_origin camera_direction [mirror] 0
  = Value (Vec3.mk 0.2 0.2 0.2)
  /\ exists reflectionColor : Vec3f,
       trace camera_origin camera_direction [mirror] 0
       = Value (Spec.specularColor mirror camera_direction
                  (Spec.normal camera_direction
                     (Spec.outwardNormal mirror
                        (Spec.hitPoint camera_origin camera_direction 4)))
                  reflectionColor (Vec3.mk 0 0 0)
                + Sphere.emissionColor mirror)%vec.
Proof.
  assert (M : Sphere.reflection mirror > 0 \/ Sphere.transparency mirror > 0)
    by (left; vec_simpl; lra).
  split.
  - refine (eq_trans
      (proj1 (specular_branch camera_origin camera_direction [mirror] 0
                (Fin 4) 0%nat mirror mirror_nearest M eq_refl)
         (Vec3.mk 2 2 2) (Vec3.mk 0 0 0)
         (front_reflection mirror eq_refl 0) (mirror_refraction 0)) _).
    f_equal. exact mirror_color.
  - destruct (proj2 (proj2
      (specular_branch camera_origin camera_direction [mirror] 0
         (Fin 4) 0%nat mirror mirror_nearest M eq_refl))) as [rc [_ Hc]].
    + intros s' [<-|[]]. reflexivity.
    + exists rc. exact Hc.
Defined.

(** C5: at a hit, the normal is negated and the hit marked inside when
    [direction . normal > 0]; when [transparency > 0] (and [depth < 5]) the
    refraction ray uses [eta = ior] inside and [1 / ior] outside with
    [ior = 1.1], [cosi = - normal . direction],
    [k = 1 - eta^2 * (1 - cosi^2)] and, for [k >= 0], the direction
    [normalize(direction * eta + normal * (eta * cosi - sqrt(k)))];
    [trace] recurses on it from [hitPoint - normal * bias] at [depth + 1],
    and the color that comes back enters the result as [refractionColor].
    At depth 4 both secondary rays do return colors. *)
Theorem refraction_branch (o d : Vec3f) (spheres : list Sphere.t) (depth : Z)
    (tnear : efloat) (i : nat) (s : Sphere.t) :
  find_nearest o d spheres 0 (INFINITY, None) = (tnear, Some (i, s)) ->
  Sphere.transparency s > 0 ->
  (depth < 5)%Z ->
  let p := (o + d *s fin tnear)%vec in
  let out := Vec3.normalize (p - Sphere.center s) in
  let inside := Vec3.dot d out >? 0 in
  let n := if inside then (- out)%vec else out in
  let eta := if inside then 1.1 else 1 / 1.1 in
  let cosi := - Vec3.dot n d in
  let k := 1 - eta ^ 2 * (1 - cosi ^ 2) in
  let refrDir :=
    Vec3.normalize (d *s eta + n *s (eta * cosi - sqrt k)) in
  0 <= k ->
  (forall reflectionColor refractionColor : Vec3f,
      Spec.reflectionColor spheres d p n depth = Value reflectionColor ->
      trace (p - n *s 1e-4)%vec refrDir spheres (depth + 1)%Z
      = Value refractionColor ->
      trace o d spheres depth
      = Value (Spec.specularColor s d n reflectionColor refractionColor
               + Sphere.emissionColor s)%vec)
  /\ (depth = 4%Z ->
      exists reflectionColor refractionColor : Vec3f,
        Spec.reflectionColor spheres d p n depth = Value reflectionColor
        /\ trace (p - n *s 1e-4)%vec refrDir spheres (depth + 1)%Z
           = Value refractionColor
        /\ trace o d spheres depth
           = Value (Spec.specularColor s d n reflectionColor refractionColor
                    + Sphere.emissionColor s)%vec).
Proof.
  intros H Ht Hd p out inside n eta cosi k refrDir K.
  pose proof (trace_refraction _ _ _ _ _ _ _ H Ht Hd) as T.
  assert (A : forall reflectionColor refractionColor : Vec3f,
      Spec.reflectionColor spheres d p n depth = Value reflectionColor ->
      trace (p - n *s 1e-4)%vec refrDir spheres (depth + 1)%Z
      = Value refractionColor ->
      trace o d spheres depth
      = Value (Spec.specularColor s d n reflectionColor refractionColor
               + Sphere.emissionColor s)%vec).
  { intros rc fc Hr Hf.
    assert (F : Spec.refraction spheres d p n inside depth = Value fc).
    { unfold Spec.refraction, checked_sqrt.
      change (Spec.k (Spec.eta inside) (Spec.cosi d n)) with k.
      rewrite (proj2 (Rltb_false _ _) K). exact Hf. }
    change (trace o d spheres depth =
      (reflectionColor <- Spec.reflectionColor spheres d p n depth ;;
       refractionColor <- Spec.refraction spheres d p n inside depth ;;
       Value (Spec.specularColor s d n reflectionColor refractionColor
              + Sphere.emissionColor s)%vec)) in T.
    now rewrite T, Hr, F. }
  split; [exact A|]. intros ->.
  destruct (trace_exhausted (p + n *s Spec.bias)%vec (Spec.reflDir d n)
              spheres (4 + 1)%Z) as [rc Hr]; [unfold MAX_RAY_DEPTH; lia|].
  destruct (trace_exhausted (p - n *s 1e-4)%vec refrDir spheres (4 + 1)%Z)
    as [fc Hf]; [unfold MAX_RAY_DEPTH; lia|].
  exists rc, fc. repeat split; trivial. now apply A.
Qed.

Lemma refraction_branch_witness :
  trace camera_origin camera_direction [crystal] 4
  = Value (Vec3.mk 0.2 0.2 0.2).
Proof.
  assert (K : 0 <= Spec.k
                (Spec.eta (Spec.inside camera_direction
                   (Spec.outwardNormal crystal
                      (Spec.hitPoint camera_origin camera_direction 4))))
                (Spec.cosi camera_direction
                   (Spec.normal camera_direction
                      (Spec.outwardNormal crystal
                         (Spec.hitPoint camera_origin camera_direction 4))))).
  { rewrite (front_normal crystal eq_refl), (front_inside crystal eq_refl),
      front_cosi_k. lra. }
  refine (eq_trans
    (proj1 (refraction_branch camera_origin camera_direction [crystal] 4
              (Fin 4) 0%nat crystal crystal_nearest crystal_transparent
              eq_refl K)
       (Vec3.mk 2 2 2) (Vec3.mk 0 0 0)
       (front_reflection crystal eq_refl 4) crystal_refraction) _).
  f_equal. exact crystal_color.
Defined.
